(** * sshforward: tunnel lifecycle of [main.go]

    A shallow embedding of [main], [forwardEndpoint] and [handleClient].
    Every goroutine is a task with a program counter naming the source line
    it is about to execute.  A scheduler choice names the goroutine that
    runs next together with the error value ([nil] or not) returned by the
    blocking call it is waiting in.  All calls that leave the process
    ([os.Open], [net.Dial], [ssh.Dial], [net.Listen], [Accept], [io.Copy],
    [Close], [log.Printf] ...) are recorded, tagged with the calling
    goroutine, in a chronological trace.

    Conventions:
    - a call that fails and the [log.Printf] reporting it are one step, and
      so are a call that fails, the [log.Fatal] line and its [os.Exit(1)];
      what is stated about their order is stated of the calling goroutine;
    - log lines are recorded without the trailing newline of the format
      string ([log] ends every line with one anyway);
    - [flag.Parse] (line 43) is outside the model, which starts at line 45
      with the two flags parsed: the exit with status 2 of a command line
      that does not parse is not part of it;
    - the [defer client.Close()] of line 89 never runs, since [main] only
      leaves through [os.Exit] (inside [log.Fatal]) or through the [return]
      of line 47, which precedes every [defer];
    - a goroutine blocked in a call is one the scheduler does not pick. *)

From stdpp Require Import base tactics option list strings.

(** ** Data model (main.go, lines 16-35) *)

Record Endpoint := mkEndpoint {
  Name : string;
  LocalAddr : string;
  RemoteAddr : string;
}.

(** The Go field [Host.Name] is called [HostName] here: record projections
    share one name space and [Name] is taken by [Endpoint]. *)
Record Host := mkHost {
  Address : string;
  Endpoints : list Endpoint;
  HostName : string;
}.

Record Config := mkConfig {
  Environment : string;
  Hosts : list Host;
}.

(** ** Errors, handles and the recorded calls *)

(** A non-nil Go [error].  [io_EOF] is the sentinel [io.EOF] that the copy
    goroutines compare against. *)
Inductive error :=
  | io_EOF
  | other_error (msg : string).

(** The [error] result of a call: [None] is [nil]. *)
Definition answer := option error.

(** [err.Error()], which is what the verb [%v] prints. *)
Definition Error (e : error) : string :=
  match e with
  | io_EOF => "EOF"
  | other_error msg => msg
  end.

(** Files, listeners, connections, ssh clients: one counter names them all. *)
Definition handle := nat.

(** The [(value, error)] pair of a call that allocates a resource. *)
Inductive result :=
  | Got (h : handle)
  | Failed (e : error).

Inductive event :=
  | EUsage                                                  (* flag.Usage() *)
  | EOpen (filename : string) (r : result)                  (* os.Open *)
  | EDecode (r : answer)                                    (* dec.Decode *)
  | EGetenv (key value : string)                            (* os.Getenv *)
  | ENetDial (network address : string) (r : result)        (* net.Dial *)
  | ELog (line : string)                                    (* log.Printf *)
  | ESshDial (address user : string) (r : result)           (* ssh.Dial "tcp" *)
  | EListen (address : string) (r : result)                 (* TCP listener bound *)
  | EAccept (l : handle) (r : result)                       (* local.Accept *)
  | EClientDial (client : handle) (address : string) (r : result) (* client.Dial "tcp" *)
  | ECopy (dst src : handle) (r : answer)                   (* io.Copy returned *)
  | EClose (c : handle) (r : answer)                        (* Conn.Close *)
  | EServe (l : handle) (e : error)                         (* http Serve returned *)
  | EExit (code : nat).                                     (* os.Exit, or main returned *)

Global Instance error_eq_dec : EqDecision error.
Proof. solve_decision. Defined.
Global Instance result_eq_dec : EqDecision result.
Proof. solve_decision. Defined.
Global Instance event_eq_dec : EqDecision event.
Proof. solve_decision. Defined.

(** ** Program counters *)

(** [main], lines 37-97. *)
Inductive main_pc :=
  | MFlags                                      (* 45-48, [flag.Parse] has returned *)
  | MOpen                                       (* 52 *)
  | MDecode (r : handle)                        (* 57-58 *)
  | MGetenv (envConfig : Config)                (* 64 *)
  | MAgentDial (envConfig : Config) (socket : string)  (* 65 *)
  | MInit (envConfig : Config)                  (* 70-81 *)
  | MRange (hosts : list Host)                  (* 83-84 *)
  | MSshDial (host : Host) (hosts : list Host)  (* 85 *)
  | MGo (client : handle) (endpoints : list Endpoint) (hosts : list Host) (* 91-93 *)
  | MServe                                      (* 96, binding ":0" *)
  | MServing (l : handle)                       (* 96, inside the HTTP server *)
  | MReturned.                                  (* the process has ended *)

(** [forwardEndpoint], lines 100-125. *)
Inductive forward_pc :=
  | FStart                                      (* 101 *)
  | FListen                                     (* 103 *)
  | FLoop (local : handle)                      (* 110, entering the loop *)
  | FAccept (local : handle)                    (* 111 *)
  | FDial (local forward : handle)              (* 117 *)
  | FGo (local forward remote : handle)         (* 123 *)
  | FReturned.

(** [handleClient], lines 127-152. *)
Inductive handle_pc :=
  | HGo1                                        (* 136 *)
  | HGo2                                        (* 145 *)
  | HReturned.

Inductive direction :=
  | RemoteToLocal                               (* 136-142 *)
  | LocalToRemote.                              (* 145-151 *)

(** The two anonymous goroutines of [handleClient]: [io.Copy], then the
    deferred [close()], which is [forward.Close()] and [remote.Close()]. *)
Inductive copy_pc :=
  | CCopy                                       (* 138 / 147 *)
  | CCloseForward                               (* 131 *)
  | CCloseRemote                                (* 132 *)
  | CReturned.

Inductive task :=
  | TMain (pc : main_pc)
  | TForward (client : handle) (endpoint : Endpoint) (pc : forward_pc)
  | THandle (forward remote : handle) (pc : handle_pc)
  | TCopy (d : direction) (f r : handle) (pc : copy_pc).

(** ** The environment at start-up *)

(** What the process finds when it starts: the parsed flags, the outcome of
    opening and decoding the configuration file, the environment variables
    ([os.Getenv] gives the empty string for an unset one) and whether a unix
    socket path can be dialled. *)
Record world := mkWorld {
  w_filename : string;
  w_username : string;
  w_open : answer;
  w_decode : Config + error;
  w_getenv : string → string;
  w_dial_unix : string → answer;
}.

(** ** One step of one goroutine *)

Record effect := mkEffect {
  next : task;
  events : list event;
  spawn : list task;
  used : nat;
  exit : option nat;
}.

Definition goto (t : task) (evs : list event) : effect :=
  mkEffect t evs [] 0 None.

Definition alloc (t : task) (evs : list event) : effect :=
  mkEffect t evs [] 1 None.

Definition go (t : task) (child : task) : effect :=
  mkEffect t [] [child] 0 None.

(** [log.Fatal] and [log.Fatalf]: print, then [os.Exit(1)], both by the
    calling goroutine and recorded in the step of the call that failed. *)
Definition fatal (evs : list event) (line : string) : effect :=
  mkEffect (TMain MReturned) (evs ++ [ELog line; EExit 1]) [] 0 (Some 1).

Definition step_main (w : world) (fresh : handle) (a : answer) (pc : main_pc) : effect :=
  match pc with
  | MFlags =>
      if (String.eqb (w_filename w) "" || String.eqb (w_username w) "")%bool
      then mkEffect (TMain MReturned) [EUsage; EExit 0] [] 0 (Some 0)
      else goto (TMain MOpen) []
  | MOpen =>
      match w_open w with
      | Some err =>
          fatal [EOpen (w_filename w) (Failed err)]
                ("Failed to open config: " ++ Error err)
      | None => alloc (TMain (MDecode fresh)) [EOpen (w_filename w) (Got fresh)]
      end
  | MDecode r =>
      match w_decode w with
      | inr err =>
          fatal [EDecode (Some err)] ("Failed to unmarshal config: " ++ Error err)
      | inl envConfig => goto (TMain (MGetenv envConfig)) [EDecode None]
      end
  | MGetenv envConfig =>
      let socket := w_getenv w "SSH_AUTH_SOCK" in
      goto (TMain (MAgentDial envConfig socket)) [EGetenv "SSH_AUTH_SOCK" socket]
  | MAgentDial envConfig socket =>
      match w_dial_unix w socket with
      | Some err =>
          fatal [ENetDial "unix" socket (Failed err)]
                ("Failed to open SSH_AUTH_SOCK: " ++ Error err)
      | None => alloc (TMain (MInit envConfig)) [ENetDial "unix" socket (Got fresh)]
      end
  | MInit envConfig =>
      goto (TMain (MRange (Hosts envConfig)))
           [ELog ("Initiating tunnels for " ++ Environment envConfig)]
  | MRange [] => goto (TMain MServe) []
  | MRange (host :: hosts) =>
      goto (TMain (MSshDial host hosts))
           [ELog ("Connecting to " ++ HostName host ++ " <" ++ Address host ++ ">")]
  | MSshDial host hosts =>
      match a with
      | Some err => fatal [ESshDial (Address host) (w_username w) (Failed err)] (Error err)
      | None =>
          alloc (TMain (MGo fresh (Endpoints host) hosts))
                [ESshDial (Address host) (w_username w) (Got fresh)]
      end
  | MGo client [] hosts => goto (TMain (MRange hosts)) []
  | MGo client (endpoint :: endpoints) hosts =>
      go (TMain (MGo client endpoints hosts)) (TForward client endpoint FStart)
  | MServe =>
      (* http.ListenAndServe(":0", nil) binds a TCP listener at ":0" and
         then serves on it until the server fails. *)
      match a with
      | Some err => fatal [EListen ":0" (Failed err)] (Error err)
      | None => alloc (TMain (MServing fresh)) [EListen ":0" (Got fresh)]
      end
  | MServing l =>
      match a with
      | Some err => fatal [EServe l err] (Error err)
      | None => goto (TMain (MServing l)) []
      end
  | MReturned => goto (TMain MReturned) []
  end.

Definition step_forward (fresh : handle) (a : answer)
    (client : handle) (endpoint : Endpoint) (pc : forward_pc) : effect :=
  let at_ pc' := TForward client endpoint pc' in
  match pc with
  | FStart =>
      goto (at_ FListen)
           [ELog ("Forwarding " ++ Name endpoint ++ " from <" ++ RemoteAddr endpoint
                  ++ "> to <" ++ LocalAddr endpoint ++ ">")]
  | FListen =>
      match a with
      | Some err =>
          goto (at_ FReturned)
               [EListen (LocalAddr endpoint) (Failed err);
                ELog ("forwarding port bind error: " ++ Error err)]
      | None => alloc (at_ (FLoop fresh)) [EListen (LocalAddr endpoint) (Got fresh)]
      end
  | FLoop local => goto (at_ (FAccept local)) []
  | FAccept local =>
      match a with
      | Some err =>
          goto (at_ FReturned)
               [EAccept local (Failed err); ELog ("local accept error: " ++ Error err)]
      | None => alloc (at_ (FDial local fresh)) [EAccept local (Got fresh)]
      end
  | FDial local forward =>
      match a with
      | Some err =>
          goto (at_ (FAccept local))
               [EClientDial client (RemoteAddr endpoint) (Failed err);
                ELog ("remote dial error: " ++ Error err)]
      | None =>
          alloc (at_ (FGo local forward fresh))
                [EClientDial client (RemoteAddr endpoint) (Got fresh)]
      end
  | FGo local forward remote =>
      go (at_ (FAccept local)) (THandle forward remote HGo1)
  | FReturned => goto (at_ FReturned) []
  end.

Definition step_handle (forward remote : handle) (pc : handle_pc) : effect :=
  match pc with
  | HGo1 => go (THandle forward remote HGo2) (TCopy RemoteToLocal forward remote CCopy)
  | HGo2 => go (THandle forward remote HReturned) (TCopy LocalToRemote forward remote CCopy)
  | HReturned => goto (THandle forward remote HReturned) []
  end.

(** [err != nil && err != io.EOF] guarding the [log.Printf] of a copy. *)
Definition copy_log (d : direction) (a : answer) : list event :=
  match a with
  | None | Some io_EOF => []
  | Some err =>
      match d with
      | RemoteToLocal => [ELog ("copy <remote->local> error: " ++ Error err)]
      | LocalToRemote => [ELog ("copy <local->remote> error: " ++ Error err)]
      end
  end.

Definition step_copy (a : answer) (d : direction) (f r : handle) (pc : copy_pc) : effect :=
  match pc with
  | CCopy =>
      let call := match d with
                  | RemoteToLocal => ECopy f r a        (* io.Copy(f, r) *)
                  | LocalToRemote => ECopy r f a        (* io.Copy(r, f) *)
                  end in
      goto (TCopy d f r CCloseForward) (call :: copy_log d a)
  | CCloseForward => goto (TCopy d f r CCloseRemote) [EClose f a]
  | CCloseRemote => goto (TCopy d f r CReturned) [EClose r a]
  | CReturned => goto (TCopy d f r CReturned) []
  end.

Definition step_task (w : world) (fresh : handle) (a : answer) (t : task) : effect :=
  match t with
  | TMain pc => step_main w fresh a pc
  | TForward client endpoint pc => step_forward fresh a client endpoint pc
  | THandle forward remote pc => step_handle forward remote pc
  | TCopy d f r pc => step_copy a d f r pc
  end.

(** ** The process *)

Record state := mkState {
  exited : option nat;
  tasks : list task;
  fresh : handle;
  trace : list (nat * event);
}.

(** The scheduler picks a goroutine and the outcome of its pending call. *)
Definition choice := (nat * answer)%type.

Definition init : state := mkState None [TMain MFlags] 0 [].

Definition step (w : world) (c : choice) (s : state) : state :=
  match exited s, tasks s !! c.1 with
  | None, Some t =>
      let e := step_task w (fresh s) c.2 t in
      mkState (exit e)
              (<[c.1 := next e]> (tasks s) ++ spawn e)
              (fresh s + used e)
              (trace s ++ map (pair c.1) (events e))
  | _, _ => s
  end.

Definition run (w : world) (sched : list choice) (s : state) : state :=
  foldl (λ s c, step w c s) s sched.

Definition reachable (w : world) (s : state) : Prop :=
  ∃ sched, s = run w sched init.

(** ** Reading the trace *)

(** The calls made by goroutine [i], in order. *)
Definition own (i : nat) (tr : list (nat * event)) : list event :=
  omap (λ x, if decide (x.1 = i) then Some x.2 else None) tr.

(** Handles on which [Close] was called. *)
Definition closes (evs : list event) : list handle :=
  omap (λ ev, match ev with EClose c _ => Some c | _ => None end) evs.

(** Addresses at which binding a TCP listener was attempted, and those at
    which it succeeded. *)
Definition listens (evs : list event) : list string :=
  omap (λ ev, match ev with EListen addr _ => Some addr | _ => None end) evs.

Definition bound (evs : list event) : list string :=
  omap (λ ev, match ev with EListen addr (Got _) => Some addr | _ => None end) evs.

(** Connections handed out by [Accept]. *)
Definition accepts (evs : list event) : list result :=
  omap (λ ev, match ev with EAccept _ r => Some r | _ => None end) evs.

(** Session attempts: the address given to [ssh.Dial] and what came back. *)
Definition ssh_dials (evs : list event) : list (string * result) :=
  omap (λ ev, match ev with ESshDial addr _ r => Some (addr, r) | _ => None end) evs.

(** The exit status recorded in a trace, if the process has ended. *)
Definition exit_code (evs : list event) : option nat :=
  head (omap (λ ev, match ev with EExit n => Some n | _ => None end) evs).

(** Events that touch something outside the process besides the log, the
    usage text and the exit itself. *)
Definition side_effect (ev : event) : bool :=
  match ev with
  | EUsage | ELog _ | EExit _ => false
  | _ => true
  end.

Definition is_main (t : task) : bool :=
  match t with TMain _ => true | _ => false end.

(** The hosts and endpoints of the configuration the process decodes. *)
Definition config_hosts (w : world) : list Host :=
  match w_decode w with
  | inl envConfig => Hosts envConfig
  | inr _ => []
  end.

Definition endpoint_addrs (hosts : list Host) : list string :=
  hosts ≫= λ host, LocalAddr <$> Endpoints host.

(** Attempts to reach the credential agent: the socket path given to
    [net.Dial "unix"] and what came back. *)
Definition agent_dials (evs : list event) : list (string * result) :=
  omap (λ ev, match ev with ENetDial _ addr r => Some (addr, r) | _ => None end) evs.

(** ** Start-up *)

(** The state once [main] has shown the usage text and returned. *)
Definition usage_state : state :=
  mkState (Some 0) [TMain MReturned] 0 [(0, EUsage); (0, EExit 0)].

(** The places [main] can be at when the agent socket cannot be dialled. *)
Definition pre_session (w : world) (pc : main_pc) : Prop :=
  match pc with
  | MFlags | MOpen | MDecode _ | MGetenv _ | MReturned => True
  | MAgentDial _ socket => socket = w_getenv w "SSH_AUTH_SOCK"
  | _ => False
  end.

(** Calls still ahead of [main] up to and including the agent dial. *)
Definition calls_to_agent (pc : main_pc) : nat :=
  match pc with
  | MFlags => 5
  | MOpen => 4
  | MDecode _ => 3
  | MGetenv _ => 2
  | MAgentDial _ _ => 1
  | _ => 0
  end.

(** ** Sessions *)

(** The hosts [main] has still to connect to, while it is running. *)
Definition remaining_hosts (w : world) (pc : main_pc) : option (list Host) :=
  match pc with
  | MFlags | MOpen | MDecode _ => Some (config_hosts w)
  | MGetenv envConfig | MAgentDial envConfig _ | MInit envConfig =>
      Some (Hosts envConfig)
  | MRange hosts => Some hosts
  | MSshDial host hosts => Some (host :: hosts)
  | MGo _ _ hosts => Some hosts
  | MServe | MServing _ => Some []
  | MReturned => None
  end.

Definition is_got (d : string * result) : Prop :=
  match d.2 with Got _ => True | Failed _ => False end.

(** What [main]'s own calls say about the sessions: while it runs every
    [ssh.Dial] so far succeeded and the addresses dialled, followed by those
    of the hosts still to come, are the configured ones in order; once it
    has ended the addresses dialled are a prefix of the configured ones and
    only the last dial can have failed, with exit status 1. *)
Definition sessions_in_order (w : world) (t : task) (evs : list event) : Prop :=
  match t with
  | TMain pc =>
      let dials := ssh_dials evs in
      match remaining_hosts w pc with
      | Some rest =>
          exit_code evs = None ∧ Forall is_got dials ∧
          dials.*1 ++ (Address <$> rest) = Address <$> config_hosts w
      | None =>
          dials.*1 `prefix_of` Address <$> config_hosts w ∧
          (Forall is_got dials ∨
           ∃ good addr err, dials = good ++ [(addr, Failed err)] ∧
                            Forall is_got good ∧ exit_code evs = Some 1)
      end
  | _ => True
  end.

(** ** Tunnels *)

(** The life of a tunnel as the design describes it. *)
Inductive phase :=
  | Unbound
  | Listening
  | Accepting
  | Stopped.

Definition phase_of (pc : forward_pc) : phase :=
  match pc with
  | FStart | FListen => Unbound
  | FLoop _ => Listening
  | FAccept _ | FDial _ _ | FGo _ _ _ => Accepting
  | FReturned => Stopped
  end.

(** The moves of the state machine, staying in place included. *)
Definition phase_step (p q : phase) : bool :=
  match p, q with
  | Unbound, (Unbound | Listening | Stopped) => true
  | Listening, (Listening | Accepting) => true
  | Accepting, (Accepting | Stopped) => true
  | Stopped, Stopped => true
  | _, _ => false
  end.

(** A goroutine whose function has returned. *)
Definition returned (t : task) : bool :=
  match t with
  | TMain MReturned | TForward _ _ FReturned | THandle _ _ HReturned
  | TCopy _ _ _ CReturned => true
  | _ => false
  end.

(** One round of the accept loop in which the channel cannot be opened:
    [Accept] hands out connection [forward], [client.Dial] fails. *)
Definition failing_round (i : nat) (err : error) : list choice :=
  [(i, None); (i, Some err)].

Definition failing_round_calls (i : nat) (client local : handle)
    (endpoint : Endpoint) (err : error) (forward : handle) : list (nat * event) :=
  [(i, EAccept local (Got forward));
   (i, EClientDial client (RemoteAddr endpoint) (Failed err));
   (i, ELog ("remote dial error: " ++ Error err))].

Fixpoint failing_rounds (i : nat) (err : error) (n : nat) : list choice :=
  match n with
  | 0 => []
  | S n => failing_round i err ++ failing_rounds i err n
  end.

Fixpoint failing_rounds_calls (i : nat) (client local : handle)
    (endpoint : Endpoint) (err : error) (forward : handle) (n : nat)
    : list (nat * event) :=
  match n with
  | 0 => []
  | S n => failing_round_calls i client local endpoint err forward ++
           failing_rounds_calls i client local endpoint err (S forward) n
  end.

(** Before its listener is bound a tunnel has neither bound nor accepted
    anything. *)
Definition unbound_quiet (t : task) (evs : list event) : Prop :=
  match t with
  | TForward _ _ (FStart | FListen) => listens evs = [] ∧ accepts evs = []
  | _ => True
  end.

(** ** Relays *)

(** How often [Close] was called on connection [c]. *)
Definition close_calls (c : handle) (evs : list event) : nat :=
  length (filter (λ h, h = c) (closes evs)).

(** The [Close] calls a copy goroutine has made, by where it stands: none
    until [io.Copy] has returned, then the local connection, then the
    channel. *)
Definition copy_closes (t : task) (evs : list event) : Prop :=
  match t with
  | TCopy _ f r pc =>
      closes evs = match pc with
                   | CCopy | CCloseForward => []
                   | CCloseRemote => [f]
                   | CReturned => [f; r]
                   end
  | _ => True
  end.

(** Connections a goroutine holds. *)
Definition conns_of (t : task) : list handle :=
  match t with
  | TForward _ _ (FDial _ forward) => [forward]
  | TForward _ _ (FGo _ forward remote) => [forward; remote]
  | THandle forward remote _ => [forward; remote]
  | TCopy _ f r _ => [f; r]
  | _ => []
  end.

(** ** Listeners *)

(** The address [main] passes to [http.ListenAndServe] on line 96. *)
Definition http_addr : string := ":0".

(** The listener binds a goroutine still has ahead of it: for [main] those
    of the tunnels it has yet to start and its own HTTP listener, for a
    tunnel its own bind. *)
Definition pending_listens (w : world) (t : task) : list string :=
  match t with
  | TMain pc =>
      match pc with
      | MFlags | MOpen | MDecode _ => endpoint_addrs (config_hosts w) ++ [http_addr]
      | MGetenv envConfig | MAgentDial envConfig _ | MInit envConfig =>
          endpoint_addrs (Hosts envConfig) ++ [http_addr]
      | MRange hosts => endpoint_addrs hosts ++ [http_addr]
      | MSshDial host hosts => endpoint_addrs (host :: hosts) ++ [http_addr]
      | MGo _ endpoints hosts =>
          (LocalAddr <$> endpoints) ++ endpoint_addrs hosts ++ [http_addr]
      | MServe => [http_addr]
      | MServing _ | MReturned => []
      end
  | TForward _ endpoint (FStart | FListen) => [LocalAddr endpoint]
  | _ => []
  end.

(** The endpoint a goroutine forwards, if it is a tunnel. *)
Definition tunnel_endpoint (t : task) : option Endpoint :=
  match t with
  | TForward _ endpoint _ => Some endpoint
  | _ => None
  end.

(** The endpoints [main] has still to start a tunnel for, while it runs. *)
Definition remaining_endpoints (w : world) (pc : main_pc) : option (list Endpoint) :=
  match pc with
  | MFlags | MOpen | MDecode _ => Some (config_hosts w ≫= Endpoints)
  | MGetenv envConfig | MAgentDial envConfig _ | MInit envConfig =>
      Some (Hosts envConfig ≫= Endpoints)
  | MRange hosts => Some (hosts ≫= Endpoints)
  | MSshDial host hosts => Some ((host :: hosts) ≫= Endpoints)
  | MGo _ endpoints hosts => Some (endpoints ++ (hosts ≫= Endpoints))
  | MServe | MServing _ => Some []
  | MReturned => None
  end.

(** While [main] runs, the tunnels started so far followed by those still
    to be started are the configured endpoints, in order. *)
Definition tunnels_in_order (w : world) (s : state) : Prop :=
  ∃ pc, tasks s !! 0 = Some (TMain pc) ∧
        match remaining_endpoints w pc with
        | Some rest =>
            omap tunnel_endpoint (tasks s) ++ rest = config_hosts w ≫= Endpoints
        | None => True
        end.

(** ** A sample deployment, used to run the model *)

Definition demo_endpoint : Endpoint := mkEndpoint "db" "127.0.0.1:9001" "10.0.0.5:22".
Definition demo_host : Host := mkHost "bastion:22" [demo_endpoint] "bastion".
Definition demo_config : Config := mkConfig "staging" [demo_host].

Definition demo_world : world :=
  mkWorld "hosts.json" "ops" None (inl demo_config)
          (λ _, "/tmp/agent.sock") (λ _, None).

(** The same deployment started without [-u]. *)
Definition no_user_world : world :=
  mkWorld "hosts.json" "" None (inl demo_config)
          (λ _, "/tmp/agent.sock") (λ _, None).

(** The same deployment with nothing listening on the agent socket. *)
Definition no_agent_world : world :=
  mkWorld "hosts.json" "ops" None (inl demo_config)
          (λ _, "/nonexistent") (λ _, Some (other_error "no such file or directory")).

(** [main] has started the tunnel, which is about to bind its listener. *)
Definition demo_before_bind : list choice := replicate 9 (0, None) ++ [(1, None)].

(** The tunnel is bound and waits in [Accept]. *)
Definition demo_accepting : list choice := demo_before_bind ++ replicate 2 (1, None).

(** [handleClient] has started both copy goroutines of the first relay. *)
Definition demo_copying : list choice :=
  replicate 12 (0, None) ++ replicate 6 (1, None) ++ replicate 2 (2, None).

(** After a round whose channel could not be opened: the tunnel accepts the
    next connection, opens its channel, and the relay runs to its end. *)
Definition demo_next_relay : list choice :=
  replicate 3 (1, None) ++ replicate 2 (2, None) ++
  replicate 3 (3, None) ++ replicate 3 (4, None).

(** [main] runs up to the HTTP server, the tunnel accepts one connection and
    opens its channel, and both copy goroutines of the relay finish. *)
Definition demo_startup : list choice := replicate 12 (0, None).
Definition demo_tunnel : list choice := replicate 6 (1, None).
Definition demo_relay : list choice :=
  replicate 2 (2, None) ++ replicate 3 (3, None) ++
  [(4, Some (other_error "closed")); (4, Some (other_error "use of closed"));
   (4, Some io_EOF)].
Definition demo_schedule : list choice := demo_startup ++ demo_tunnel ++ demo_relay.

(** What holds of every state when the agent socket cannot be dialled:
    [main] is alone, has not got past the dial, and no session or listener
    has been asked for. *)
Definition agentless (w : world) (s : state) : Prop :=
  ∃ pc, tasks s = [TMain pc] ∧ pre_session w pc ∧
        ssh_dials (trace s).*2 = [] ∧ listens (trace s).*2 = [] ∧
        match exited s with
        | None => pc ≠ MReturned ∧ agent_dials (trace s).*2 = []
        | Some n => n = 1 ∨ agent_dials (trace s).*2 = []
        end.

(** Connections are named by handles already given out, only connections
    held by some goroutine get closed, and a connection waiting for its
    channel is held by its tunnel alone and has not been closed. *)
Record conn_inv (s : state) : Prop := mkConnInv {
  ci_held : ∀ j t h, tasks s !! j = Some t → h ∈ conns_of t → h < fresh s;
  ci_closed : ∀ h, h ∈ closes (trace s).*2 → h < fresh s;
  ci_pending : ∀ i client endpoint local forward,
    tasks s !! i = Some (TForward client endpoint (FDial local forward)) →
    (forward ∉ closes (trace s).*2) ∧
    ∀ j t, j ≠ i → tasks s !! j = Some t → forward ∉ conns_of t;
}.

(** A connection no goroutine holds and nobody has closed. *)
Definition abandoned (c : handle) (s : state) : Prop :=
  c < fresh s ∧ (c ∉ closes (trace s).*2) ∧
  ∀ j t, tasks s !! j = Some t → c ∉ conns_of t.

(** ** The start-up script of [main] *)

(** Both required flags were given (line 45). *)
Definition flags_given (w : world) : Prop :=
  w_filename w ≠ "" ∧ w_username w ≠ "".

(** The calls of lines 52-81 when each of them succeeds. *)
Definition startup_calls (w : world) (envConfig : Config) (r agentConn : handle)
    : list event :=
  [EOpen (w_filename w) (Got r);
   EDecode None;
   EGetenv "SSH_AUTH_SOCK" (w_getenv w "SSH_AUTH_SOCK");
   ENetDial "unix" (w_getenv w "SSH_AUTH_SOCK") (Got agentConn);
   ELog ("Initiating tunnels for " ++ Environment envConfig)].

(** The whole life of [main] when the file cannot be opened, when it cannot
    be decoded, and when the agent cannot be dialled. *)
Definition open_failed_calls (w : world) (err : error) : list event :=
  [EOpen (w_filename w) (Failed err);
   ELog ("Failed to open config: " ++ Error err);
   EExit 1].

Definition decode_failed_calls (w : world) (r : handle) (err : error) : list event :=
  [EOpen (w_filename w) (Got r);
   EDecode (Some err);
   ELog ("Failed to unmarshal config: " ++ Error err);
   EExit 1].

Definition agent_failed_calls (w : world) (r : handle) (err : error) : list event :=
  [EOpen (w_filename w) (Got r);
   EDecode None;
   EGetenv "SSH_AUTH_SOCK" (w_getenv w "SSH_AUTH_SOCK");
   ENetDial "unix" (w_getenv w "SSH_AUTH_SOCK") (Failed err);
   ELog ("Failed to open SSH_AUTH_SOCK: " ++ Error err);
   EExit 1].

(** [main] got through lines 41-81: the flags were given, the file opened
    and decoded, the agent dialled, and its calls begin with those. *)
Definition started (w : world) (evs : list event) : Prop :=
  ∃ envConfig r agentConn rest,
    flags_given w ∧ w_open w = None ∧ w_decode w = inl envConfig ∧
    w_dial_unix w (w_getenv w "SSH_AUTH_SOCK") = None ∧
    evs = startup_calls w envConfig r agentConn ++ rest.

(** [main] ended within lines 41-68. *)
Definition startup_failed (w : world) (evs : list event) : Prop :=
  (¬ flags_given w ∧ evs = [EUsage; EExit 0]) ∨
  (flags_given w ∧ ∃ err, w_open w = Some err ∧ evs = open_failed_calls w err) ∨
  (flags_given w ∧ w_open w = None ∧
   ∃ r err, w_decode w = inr err ∧ evs = decode_failed_calls w r err) ∨
  (flags_given w ∧ w_open w = None ∧
   ∃ envConfig r err,
     w_decode w = inl envConfig ∧
     w_dial_unix w (w_getenv w "SSH_AUTH_SOCK") = Some err ∧
     evs = agent_failed_calls w r err).

(** The calls [main] has made, by where it stands. *)
Definition main_script (w : world) (t : task) (evs : list event) : Prop :=
  match t with
  | TMain pc =>
      match pc with
      | MFlags => evs = []
      | MOpen => flags_given w ∧ evs = []
      | MDecode r =>
          flags_given w ∧ w_open w = None ∧ evs = [EOpen (w_filename w) (Got r)]
      | MGetenv envConfig =>
          flags_given w ∧ w_open w = None ∧ w_decode w = inl envConfig ∧
          ∃ r, evs = take 2 (startup_calls w envConfig r 0)
      | MAgentDial envConfig socket =>
          flags_given w ∧ w_open w = None ∧ w_decode w = inl envConfig ∧
          socket = w_getenv w "SSH_AUTH_SOCK" ∧
          ∃ r, evs = take 3 (startup_calls w envConfig r 0)
      | MInit envConfig =>
          flags_given w ∧ w_open w = None ∧ w_decode w = inl envConfig ∧
          w_dial_unix w (w_getenv w "SSH_AUTH_SOCK") = None ∧
          ∃ r agentConn, evs = take 4 (startup_calls w envConfig r agentConn)
      | MReturned => startup_failed w evs ∨ started w evs
      | _ => started w evs
      end
  | _ => True
  end.

(** Until [main] is through its start-up it is the only goroutine. *)
Definition alone_until_started (w : world) (s : state) : Prop :=
  (∃ pc, tasks s = [TMain pc]) ∨ started w (own 0 (trace s)).

(** The sample deployment with an unreadable and with a malformed file. *)
Definition no_file_world : world :=
  mkWorld "hosts.json" "ops" (Some (other_error "no such file or directory"))
          (inl demo_config) (λ _, "/tmp/agent.sock") (λ _, None).

Definition bad_json_world : world :=
  mkWorld "hosts.json" "ops" None (inr (other_error "unexpected end of JSON input"))
          (λ _, "/tmp/agent.sock") (λ _, None).

(** ** The calls of a tunnel *)

(** What the binds a goroutine attempted returned, and the listeners it
    called [Accept] on. *)
Definition listen_results (evs : list event) : list result :=
  omap (λ ev, match ev with EListen _ r => Some r | _ => None end) evs.

Definition accept_listeners (evs : list event) : list handle :=
  omap (λ ev, match ev with EAccept l _ => Some l | _ => None end) evs.

(** The calls [forwardEndpoint client endpoint] can make: log lines, a bind
    at the endpoint's local address, accepts, and channels opened on
    [client] to the endpoint's remote address. *)
Definition tunnel_call (client : handle) (endpoint : Endpoint) (ev : event) : Prop :=
  match ev with
  | ELog _ | EAccept _ _ => True
  | EListen addr _ => addr = LocalAddr endpoint
  | EClientDial c addr _ => c = client ∧ addr = RemoteAddr endpoint
  | _ => False
  end.

(** The calls a tunnel has made, by where it stands. *)
Definition tunnel_script (t : task) (evs : list event) : Prop :=
  match t with
  | TForward client endpoint pc =>
      Forall (tunnel_call client endpoint) evs ∧
      match pc with
      | FStart | FListen => listen_results evs = [] ∧ accept_listeners evs = []
      | FLoop l | FAccept l | FDial l _ | FGo l _ _ =>
          listen_results evs = [Got l] ∧
          Forall (λ l', l' = l) (accept_listeners evs)
      | FReturned =>
          (∃ err, listen_results evs = [Failed err] ∧ accept_listeners evs = []) ∨
          (∃ l, listen_results evs = [Got l] ∧
                Forall (λ l', l' = l) (accept_listeners evs))
      end
  | _ => True
  end.

(** ** Sessions and their tunnels *)

(** The session [ssh.Dial] returned for [host] with the given user name. *)
Definition session_event (w : world) (host : Host) (client : handle) : event :=
  ESshDial (Address host) (w_username w) (Got client).

(** Where [main] stands in the configuration: the hosts still to come are
    a tail of the configured hosts, and while it starts the tunnels of a
    host, the endpoints still to come are a tail of that host's endpoints
    and [client] is the session it dialled for that host. *)
Definition main_in_config (w : world) (t : task) (evs : list event) : Prop :=
  match t with
  | TMain pc =>
      match pc with
      | MGetenv envConfig | MAgentDial envConfig _ | MInit envConfig =>
          Hosts envConfig = config_hosts w
      | MRange hosts => hosts `suffix_of` config_hosts w
      | MSshDial host hosts => host :: hosts `suffix_of` config_hosts w
      | MGo client endpoints hosts =>
          ∃ host, host :: hosts `suffix_of` config_hosts w ∧
                  endpoints `suffix_of` Endpoints host ∧
                  session_event w host client ∈ evs
      | _ => True
      end
  | _ => True
  end.

(** Every tunnel forwards an endpoint of a configured host over the session
    established with that host. *)
Definition tunnels_have_sessions (w : world) (s : state) : Prop :=
  ∀ i client endpoint pc,
    tasks s !! i = Some (TForward client endpoint pc) →
    ∃ host, host ∈ config_hosts w ∧ endpoint ∈ Endpoints host ∧
            session_event w host client ∈ own 0 (trace s).

(** ** Who owns a connection *)

(** The connections a goroutine owns: a tunnel the one it accepted and the
    channel it opened until it hands them over, a relay its pair.  The copy
    goroutines work on the pair of their relay. *)
Definition relay_conns (t : task) : list handle :=
  match t with
  | TForward _ _ (FDial _ forward) => [forward]
  | TForward _ _ (FGo _ forward remote) => [forward; remote]
  | THandle forward remote _ => [forward; remote]
  | _ => []
  end.

(** No connection has two owners, and every owned connection was given
    out. *)
Definition conns_exclusive (s : state) : Prop :=
  NoDup (tasks s ≫= relay_conns) ∧
  Forall (λ c, c < fresh s) (tasks s ≫= relay_conns).

(** Every copy goroutine was started by a relay on the same pair, a relay
    past line 142 has started its remote-to-local copy, and a relay that
    has returned has started both. *)
Definition relay_family (s : state) : Prop :=
  (∀ k d f r pc, tasks s !! k = Some (TCopy d f r pc) →
     ∃ j pc', tasks s !! j = Some (THandle f r pc')) ∧
  (∀ j f r pc', tasks s !! j = Some (THandle f r pc') → pc' ≠ HGo1 →
     ∃ k pc, tasks s !! k = Some (TCopy RemoteToLocal f r pc)) ∧
  (∀ j f r, tasks s !! j = Some (THandle f r HReturned) →
     ∃ k pc, tasks s !! k = Some (TCopy LocalToRemote f r pc)).

(** The goroutine a task is, whatever line it stands at: the function it
    runs and the arguments it was started with. *)
Definition goroutine_of (t : task) : task :=
  match t with
  | TMain _ => TMain MFlags
  | TForward client endpoint _ => TForward client endpoint FStart
  | THandle forward remote _ => THandle forward remote HGo1
  | TCopy d f r _ => TCopy d f r CCopy
  end.

(** A second connection is accepted and relayed while the first relay has
    already finished. *)
Definition demo_two_relays : list choice := demo_schedule ++ replicate 3 (1, None).

(** ** The life of a copy goroutine *)

(** [io.Copy(f, r)] for remote to local, [io.Copy(r, f)] for local to
    remote, with what it returned. *)
Definition copy_call (d : direction) (f r : handle) (a : answer) : event :=
  match d with
  | RemoteToLocal => ECopy f r a
  | LocalToRemote => ECopy r f a
  end.

(** All the calls of a copy goroutine that ran to its end: the copy, the
    log line if there is one, and the two closes of the deferred
    [close()]. *)
Definition copy_life (d : direction) (f r : handle) (a a2 a3 : answer) : list event :=
  copy_call d f r a :: copy_log d a ++ [EClose f a2; EClose r a3].

(** The calls a copy goroutine has made, by where it stands. *)
Definition copy_script (t : task) (evs : list event) : Prop :=
  match t with
  | TCopy d f r pc =>
      ∃ a a2 a3,
        evs = take (match pc with
                    | CCopy => 0
                    | CCloseForward => 1 + length (copy_log d a)
                    | CCloseRemote => 2 + length (copy_log d a)
                    | CReturned => 3 + length (copy_log d a)
                    end) (copy_life d f r a a2 a3)
  | _ => True
  end.

(** ** Rounds of the accept loop *)

(** One round in which the channel opens: [Accept], [client.Dial], and the
    relay goroutine is started. *)
Definition serving_round (i : nat) : list choice := replicate 3 (i, None).

Fixpoint serving_rounds (i : nat) (n : nat) : list choice :=
  match n with
  | 0 => []
  | S n => serving_round i ++ serving_rounds i n
  end.

(** The relays started by [n] such rounds, the first accepted connection
    being [forward]: none of them has run yet. *)
Fixpoint relays_started (forward : handle) (n : nat) : list task :=
  match n with
  | 0 => []
  | S n => THandle forward (S forward) HGo1 :: relays_started (S (S forward)) n
  end.

(** ** Tunnels in configuration order *)

(** The tunnels started so far are the first of the configured endpoints,
    in order; while [main] runs, the rest are those still to come. *)
Definition tunnels_prefix (w : world) (s : state) : Prop :=
  ∃ pc, tasks s !! 0 = Some (TMain pc) ∧
        match remaining_endpoints w pc with
        | Some rest =>
            omap tunnel_endpoint (tasks s) ++ rest = config_hosts w ≫= Endpoints
        | None =>
            omap tunnel_endpoint (tasks s) `prefix_of` config_hosts w ≫= Endpoints
        end.

(** ** Who closes what *)

(** Only copy goroutines call [Close], and only on their own pair. *)
Definition closes_own_pair (t : task) (evs : list event) : Prop :=
  match t with
  | TCopy _ f r _ => Forall (λ c, c = f ∨ c = r) (closes evs)
  | _ => closes evs = []
  end.

(** ** Building the sessions *)

(** The steps [main] takes for one host when its dial succeeds: the
    "Connecting to" line, [ssh.Dial], one [go forwardEndpoint] per
    endpoint, and the return to the head of the loop; and for a list of
    hosts. *)
Fixpoint hosts_steps (hosts : list Host) : nat :=
  match hosts with
  | [] => 0
  | host :: hosts => 2 + (S (length (Endpoints host)) + hosts_steps hosts)
  end.

(** The sessions those steps build, the first client being [client]: one
    per host, in order. *)
Fixpoint sessions_built (client : handle) (hosts : list Host)
    : list (string * result) :=
  match hosts with
  | [] => []
  | host :: hosts => (Address host, Got client) :: sessions_built (S client) hosts
  end.

(** A deployment with a second host behind the first. *)
Definition demo_host2 : Host :=
  mkHost "db1:22" [mkEndpoint "pg" "127.0.0.1:5432" "10.0.1.7:5432"] "db1".

Definition two_host_world : world :=
  mkWorld "hosts.json" "ops" None
          (inl (mkConfig "staging" [demo_host; demo_host2]))
          (λ _, "/tmp/agent.sock") (λ _, None).

(** ** Well-formed states *)

(** Goroutine 0 is [main] and the only one; every recorded call was made by
    an existing goroutine; the exit flag is the recorded exit status. *)
Record wf (s : state) : Prop := mkWf {
  wf_main : ∃ pc, tasks s !! 0 = Some (TMain pc);
  wf_others : ∀ i t, tasks s !! i = Some t → is_main t = true → i = 0;
  wf_tags : Forall (λ x, x.1 < length (tasks s)) (trace s);
  wf_exit : exited s = exit_code (trace s).*2;
}.

(** ** Proof automation *)

(** Case analysis on the outcome [main] branches on. *)
Ltac main_cases :=
  repeat match goal with
         | |- context [next (match ?x with _ => _ end)] => destruct x eqn:?
         end.

(** Hypotheses taken apart. *)
Ltac break_hyps :=
  repeat match goal with
         | H : _ ∧ _ |- _ => destruct H
         | H : ∃ _, _ |- _ => destruct H
         | H : _ ∨ _ |- _ => destruct H
         end.

(** Membership in a list written out. *)
Ltac elems :=
  repeat match goal with
         | H : _ ∈ [] |- _ => by apply elem_of_nil in H
         | H : _ ∈ _ :: _ |- _ => apply elem_of_cons in H as [->|H]
         | |- _ ∈ _ :: _ => apply elem_of_cons
         end.

(** * Executions *)

Lemma run_nil w s : run w [] s = s.
Proof. done. Qed.

Lemma run_cons w c sched s : run w (c :: sched) s = run w sched (step w c s).
Proof. done. Qed.

Lemma run_app w sched1 sched2 s :
  run w (sched1 ++ sched2) s = run w sched2 (run w sched1 s).
Proof. apply foldl_app. Qed.

Lemma run_snoc w sched c s : run w (sched ++ [c]) s = step w c (run w sched s).
Proof. by rewrite run_app. Qed.

Lemma reachable_init w : reachable w init.
Proof. by exists []. Qed.

Lemma reachable_step w c s : reachable w s → reachable w (step w c s).
Proof. intros [sched ->]. exists (sched ++ [c]). by rewrite run_snoc. Qed.

Lemma reachable_run w sched s : reachable w s → reachable w (run w sched s).
Proof.
  revert s. induction sched as [|c sched IH]; intros s Hs; [done|].
  rewrite run_cons. by apply IH, reachable_step.
Qed.

(** Invariants are proved by induction on the schedule, last step first. *)
Lemma reachable_ind' w (P : state → Prop) :
  P init →
  (∀ s c, reachable w s → P s → P (step w c s)) →
  ∀ s, reachable w s → P s.
Proof.
  intros Hinit Hstep s [sched ->].
  induction sched as [|c sched IH] using rev_ind; [done|].
  rewrite run_snoc. apply Hstep; [by exists sched|done].
Qed.

(** A step either does nothing (the process has ended, or there is no such
    goroutine) or applies the effect of the chosen goroutine. *)
Lemma step_cases w c s :
  step w c s = s ∨
  ∃ t, exited s = None ∧ tasks s !! c.1 = Some t ∧
       step w c s =
         let e := step_task w (fresh s) c.2 t in
         mkState (exit e) (<[c.1 := next e]> (tasks s) ++ spawn e)
                 (fresh s + used e) (trace s ++ map (pair c.1) (events e)).
Proof.
  unfold step. destruct (exited s); [by left|].
  destruct (tasks s !! c.1) as [t|]; [right; by exists t|by left].
Qed.

Lemma step_exited w c s n : exited s = Some n → step w c s = s.
Proof. unfold step. by intros ->. Qed.

Lemma run_exited w sched s n : exited s = Some n → run w sched s = s.
Proof.
  induction sched as [|c sched IH]; intros Hs; [done|].
  rewrite run_cons, (step_exited _ _ _ n Hs). by apply IH.
Qed.

Lemma step_absent w c s : tasks s !! c.1 = None → step w c s = s.
Proof. unfold step. intros ->. by destruct (exited s). Qed.

(** ** Projections of the trace *)

Lemma own_app i tr1 tr2 : own i (tr1 ++ tr2) = own i tr1 ++ own i tr2.
Proof. apply omap_app. Qed.

Lemma own_tag_eq i evs : own i (map (pair i) evs) = evs.
Proof.
  unfold own. induction evs as [|ev evs IH]; [done|].
  csimpl. rewrite decide_True by done. by rewrite IH.
Qed.

Lemma own_tag_ne i j evs : i ≠ j → own i (map (pair j) evs) = [].
Proof.
  intros Hne. unfold own. induction evs as [|ev evs IH]; [done|].
  csimpl. by rewrite decide_False.
Qed.

Lemma own_fresh i tr : Forall (λ x, x.1 ≠ i) tr → own i tr = [].
Proof.
  unfold own. induction 1 as [|x tr Hx _ IH]; [done|].
  csimpl. by rewrite decide_False.
Qed.

Lemma elem_of_own i ev tr : ev ∈ own i tr ↔ (i, ev) ∈ tr.
Proof.
  unfold own. rewrite list_elem_of_omap. split.
  - intros [[j ev'] [Hin Heq]]. simpl in Heq.
    destruct (decide (j = i)); naive_solver.
  - intros Hin. exists (i, ev). split; [done|]. simpl. by rewrite decide_True.
Qed.

(** ** Shape of the effects *)

Lemma step_task_kind w fr a t : is_main (next (step_task w fr a t)) = is_main t.
Proof.
  destruct t as [pc|cl ep pc|f r pc|d f r pc]; simpl.
  - destruct pc as [| | | | | |[|]| |?[|]| | |]; simpl;
      repeat case_match; done.
  - destruct pc; simpl; repeat case_match; done.
  - by destruct pc.
  - by destruct pc.
Qed.

Lemma step_task_spawn w fr a t t' :
  t' ∈ spawn (step_task w fr a t) →
  match t with
  | TMain (MGo client (endpoint :: _) _) => t' = TForward client endpoint FStart
  | TForward _ _ (FGo _ forward remote) => t' = THandle forward remote HGo1
  | THandle f r HGo1 => t' = TCopy RemoteToLocal f r CCopy
  | THandle f r HGo2 => t' = TCopy LocalToRemote f r CCopy
  | _ => False
  end.
Proof.
  destruct t as [pc|cl ep pc|f r pc|d f r pc]; simpl.
  - destruct pc as [| | | | | |[|]| |?[|]| | |]; simpl;
      repeat case_match; simpl;
      rewrite ?elem_of_nil, ?list_elem_of_singleton; done.
  - destruct pc; simpl; repeat case_match; simpl;
      rewrite ?elem_of_nil, ?list_elem_of_singleton; done.
  - destruct pc; simpl; rewrite ?elem_of_nil, ?list_elem_of_singleton; done.
  - destruct pc; simpl; rewrite ?elem_of_nil, ?list_elem_of_singleton; done.
Qed.

Lemma step_task_spawn_kind w fr a t t' :
  t' ∈ spawn (step_task w fr a t) → is_main t' = false.
Proof.
  intros Hin. apply step_task_spawn in Hin.
  repeat case_match; naive_solver.
Qed.

(** Only [main] ends the process, and the exit is the last recorded call. *)
Lemma step_task_exit w fr a t :
  exit (step_task w fr a t) = exit_code (events (step_task w fr a t)).
Proof.
  destruct t as [pc|cl ep pc|f r pc|d f r pc]; simpl.
  - destruct pc as [| | | | | |[|]| |?[|]| | |]; simpl;
      repeat case_match; done.
  - destruct pc; simpl; repeat case_match; done.
  - by destruct pc.
  - destruct pc; simpl; try done. destruct d, a as [[]|]; done.
Qed.

Lemma exit_code_app evs1 evs2 :
  exit_code (evs1 ++ evs2) =
    match exit_code evs1 with Some n => Some n | None => exit_code evs2 end.
Proof.
  unfold exit_code. rewrite omap_app.
  by destruct (omap _ evs1).
Qed.

Lemma snd_tagged (i : nat) (evs : list event) :
  (map (pair i) evs : list (nat * event)).*2 = evs.
Proof. induction evs; [done|]. simpl. by f_equal. Qed.

(** ** What a step does to the other goroutines *)

Lemma step_self w i a s t :
  exited s = None → tasks s !! i = Some t →
  step w (i, a) s =
    let e := step_task w (fresh s) a t in
    mkState (exit e) (<[i := next e]> (tasks s) ++ spawn e)
            (fresh s + used e) (trace s ++ map (pair i) (events e)).
Proof. unfold step. simpl. by intros -> ->. Qed.

Lemma step_self_task w i a s t :
  exited s = None → tasks s !! i = Some t →
  tasks (step w (i, a) s) !! i = Some (next (step_task w (fresh s) a t)).
Proof.
  intros Hex Ht. rewrite (step_self _ _ _ _ t) by done. simpl.
  apply lookup_lt_Some in Ht as Hlt.
  rewrite lookup_app_l by (by rewrite length_insert).
  by rewrite list_lookup_insert_eq.
Qed.

Lemma reachable_wf w s : reachable w s → wf s.
Proof.
  induction 1 as [|s [i a] _ IH] using reachable_ind'.
  { split; simpl; eauto.
    intros [|i] t; [done|]. by rewrite lookup_cons. }
  destruct (step_cases w (i, a) s) as [->|(t & Hex & Ht & ->)]; [done|].
  simpl in *. destruct IH as [[pc Hpc] Hothers Htags Hexit].
  apply lookup_lt_Some in Ht as Hlt.
  set (e := step_task w (fresh s) a t).
  split; simpl.
  - rewrite lookup_app_l by (rewrite length_insert; lia).
    destruct (decide (i = 0)) as [->|Hne].
    + rewrite list_lookup_insert_eq by done.
      assert (t = TMain pc) as -> by congruence.
      pose proof (step_task_kind w (fresh s) a (TMain pc)) as Hk. fold e in Hk.
      destruct (next e); try done. eauto.
    + rewrite list_lookup_insert_ne by done. eauto.
  - intros j t' Hj Hm. destruct (decide (j < length (tasks s))) as [Hjlt|Hjge].
    + rewrite lookup_app_l in Hj by (by rewrite length_insert).
      destruct (decide (j = i)) as [->|Hne].
      * rewrite list_lookup_insert_eq in Hj by done. injection Hj as <-.
        unfold e in Hm. rewrite step_task_kind in Hm. eauto.
      * rewrite list_lookup_insert_ne in Hj by done. eauto.
    + rewrite lookup_app_r in Hj by (rewrite length_insert; lia).
      apply list_elem_of_lookup_2, step_task_spawn_kind in Hj. congruence.
  - rewrite length_app, length_insert. apply Forall_app. split.
    + eapply Forall_impl; [done|]. simpl. intros; lia.
    + apply Forall_forall. intros x [ev [-> _]]%list_elem_of_fmap. simpl. lia.
  - rewrite fmap_app, snd_tagged, exit_code_app, <-Hexit, Hex.
    apply step_task_exit.
Qed.

(** ** Invariants of one goroutine *)

(** A property of a goroutine and of the calls it has made so far holds in
    every reachable state when it holds at [main]'s entry, for a freshly
    spawned goroutine, and is kept by each step of the goroutine itself. *)
Section local_invariant.
Context (w : world) (P : task → list event → Prop).
Hypothesis P_init : P (TMain MFlags) [].
Hypothesis P_spawn : ∀ t fr a t', t' ∈ spawn (step_task w fr a t) → P t' [].
Hypothesis P_step : ∀ t fr a evs,
  P t evs → P (next (step_task w fr a t)) (evs ++ events (step_task w fr a t)).

Lemma local_invariant s i t :
  reachable w s → tasks s !! i = Some t → P t (own i (trace s)).
Proof.
  intros Hs. revert i t.
  induction Hs as [|s [j a] Hs IH] using reachable_ind'.
  { intros [|i] t Hi; simpl in Hi; [|done]. by injection Hi as <-. }
  intros i t'.
  destruct (step_cases w (j, a) s) as [->|(t & Hex & Ht & ->)]; [apply IH|].
  simpl in *. apply lookup_lt_Some in Ht as Hlt.
  pose proof (wf_tags _ (reachable_wf _ _ Hs)) as Htags.
  rewrite own_app. intros Hi.
  destruct (decide (i < length (tasks s))) as [Hilt|Hige].
  - rewrite lookup_app_l in Hi by (by rewrite length_insert).
    destruct (decide (i = j)) as [->|Hne].
    + rewrite list_lookup_insert_eq in Hi by done. injection Hi as <-.
      rewrite own_tag_eq. by apply P_step, IH.
    + rewrite list_lookup_insert_ne in Hi by done.
      rewrite own_tag_ne, app_nil_r by done. by apply IH.
  - rewrite lookup_app_r in Hi by (rewrite length_insert; lia).
    apply list_elem_of_lookup_2 in Hi.
    rewrite own_fresh, own_tag_ne by first [lia | eapply Forall_impl; [done|simpl; intros; lia]].
    simpl. by eapply P_spawn.
Qed.
End local_invariant.

(** Calls that only [main] makes can be read off [main]'s own calls. *)
Lemma trace_main_only {B} w s (g : event → option B) :
  reachable w s →
  (∀ fr a t, is_main t = false → omap g (events (step_task w fr a t)) = []) →
  omap g (trace s).*2 = omap g (own 0 (trace s)).
Proof.
  intros Hs Hg. induction Hs as [|s [i a] Hs IH] using reachable_ind'; [done|].
  destruct (step_cases w (i, a) s) as [->|(t & Hex & Ht & ->)]; [done|].
  simpl in *. rewrite fmap_app, snd_tagged, own_app, !omap_app, IH. f_equal.
  destruct (decide (i = 0)) as [->|Hne]; [by rewrite own_tag_eq|].
  rewrite own_tag_ne by done. apply Hg.
  destruct (is_main t) eqn:Hm; [|done].
  by apply (wf_others _ (reachable_wf _ _ Hs)) in Ht.
Qed.

(** * Start-up parameters *)

Lemma step_init_other w i a : i ≠ 0 → step w (i, a) init = init.
Proof. intros Hne. apply step_absent. simpl. by destruct i. Qed.

Lemma step_init_usage w a :
  w_filename w = "" ∨ w_username w = "" → step w (0, a) init = usage_state.
Proof.
  intros Hw. unfold step, usage_state. simpl.
  assert ((String.eqb (w_filename w) "" || String.eqb (w_username w) "")%bool = true)
    as ->; [|done].
  apply orb_true_iff. by rewrite !String.eqb_eq.
Qed.

Lemma run_usage w sched :
  w_filename w = "" ∨ w_username w = "" →
  (Forall (λ c, c.1 ≠ 0) sched ∧ run w sched init = init) ∨
  (Exists (λ c, c.1 = 0) sched ∧ run w sched init = usage_state).
Proof.
  intros Hw. induction sched as [|[i a] sched IH]; [by left|].
  rewrite run_cons. destruct (decide (i = 0)) as [->|Hne].
  - right. split; [by left|].
    rewrite step_init_usage by done. by apply (run_exited _ _ _ 0).
  - rewrite step_init_other by done.
    destruct IH as [[Hall ->]|[Hex ->]]; [left|right]; split; try done.
    + by constructor.
    + by right.
Qed.

(** C10. When the config file path or the user name is empty, [main] shows
    the usage text and returns: whatever the scheduler does, the only calls
    ever recorded are the usage text and the exit, no handle is allocated
    (no file opened, no socket dialled, no session, no listener), no
    goroutine is started, and as soon as [main] has run once the process
    has ended with status 0. *)
Theorem missing_flag_shows_usage_only w sched :
  w_filename w = "" ∨ w_username w = "" →
  let s := run w sched init in
  Forall (λ x, side_effect x.2 = false) (trace s) ∧
  fresh s = 0 ∧ length (tasks s) = 1 ∧
  (Exists (λ c, c.1 = 0) sched →
   (trace s).*2 = [EUsage; EExit 0] ∧ exited s = Some 0).
Proof.
  intros Hw. simpl.
  destruct (run_usage w sched Hw) as [[Hall ->]|[Hex ->]]; simpl.
  - split_and!; try done.
    intros Hex. apply Exists_exists in Hex as ([i a] & Hin & Hi).
    rewrite Forall_forall in Hall. by apply Hall in Hin.
  - split_and!; try done. by repeat constructor.
Qed.

Lemma missing_flag_shows_usage_only_witness :
  (trace (run no_user_world [(0, None)] init)).*2 = [EUsage; EExit 0] ∧
  exited (run no_user_world [(0, None)] init) = Some 0.
Proof.
  apply (missing_flag_shows_usage_only no_user_world [(0, None)]).
  - right. reflexivity.
  - left. reflexivity.
Defined.

(** * The credential agent *)

Section agent_unreachable.
Context (w : world) (err : error).
Hypothesis agent_down : w_dial_unix w (w_getenv w "SSH_AUTH_SOCK") = Some err.

Lemma agentless_step c s : agentless w s → agentless w (step w c s).
Proof.
  intros (pc & Htasks & Hpc & Hssh & Hlisten & Hexit).
  destruct c as [i a]. destruct (exited s) as [n|] eqn:Hex.
  { rewrite (step_exited _ _ _ n Hex). exists pc. by rewrite Hex. }
  destruct (decide (i = 0)) as [->|Hne]; cycle 1.
  { rewrite step_absent; [exists pc; by rewrite Hex|].
    rewrite Htasks. simpl. by destruct i. }
  rewrite (step_self _ _ _ _ (TMain pc)) by (by rewrite ?Htasks).
  destruct Hexit as [Hret Hagent]. unfold agentless. simpl.
  rewrite Htasks, fmap_app, snd_tagged.
  unfold ssh_dials, listens, agent_dials in *.
  rewrite !omap_app, Hssh, Hlisten, Hagent.
  destruct pc; simpl in Hpc; try done; simpl; subst;
    repeat (case_match; simpl); try congruence;
    eexists; split_and!; by eauto.
Qed.

Lemma reachable_agentless s : reachable w s → agentless w s.
Proof.
  induction 1 as [|s c _ IH] using reachable_ind'.
  - exists MFlags. by repeat split.
  - by apply agentless_step.
Qed.

Lemma agentless_exits n s pc a :
  agentless w s → tasks s = [TMain pc] → calls_to_agent pc ≤ n →
  exited (run w (replicate n (0, a)) s) ≠ None.
Proof.
  revert s pc. induction n as [|n IH]; intros s pc Hs Htasks Hn.
  - destruct Hs as (pc' & Htasks' & Hpc & _ & _ & Hexit).
    assert (pc' = pc) as -> by congruence. simpl.
    destruct (exited s); [done|]. destruct Hexit as [Hret _].
    destruct pc; simpl in *; try done; lia.
  - change (replicate (S n) (0, a)) with ((0, a) :: replicate n (0, a)).
    rewrite run_cons.
    destruct (exited s) as [m|] eqn:Hex.
    { rewrite (step_exited _ _ _ m Hex), (run_exited _ _ _ m Hex). by rewrite Hex. }
    pose proof (agentless_step (0, a) s Hs) as Hs'.
    destruct Hs' as (pc' & Htasks' & Hrest).
    apply (IH _ pc'); [by exists pc'|done|].
    rewrite (step_self _ _ _ _ (TMain pc)) in Htasks' by (by rewrite ?Htasks).
    simpl in Htasks'. rewrite Htasks in Htasks'.
    destruct Hs as (pc0 & Htasks0 & Hpc & _).
    assert (pc0 = pc) as -> by congruence.
    destruct pc; simpl in Hpc, Htasks'; try done; subst;
      repeat (case_match; simpl in * );
      injection Htasks' as <-; simpl; lia.
Qed.
End agent_unreachable.

(** * Sessions *)

Lemma step_task_no_ssh_dial w fr a t :
  is_main t = false → ssh_dials (events (step_task w fr a t)) = [].
Proof.
  destruct t as [pc|cl ep pc|f r pc|d f r pc]; simpl; [done|..]; intros _.
  - destruct pc; simpl; repeat case_match; done.
  - by destruct pc.
  - by destruct pc, d, a as [[]|].
Qed.

Lemma step_task_no_exit w fr a t :
  is_main t = false →
  omap (λ ev, match ev with EExit n => Some n | _ => None end)
       (events (step_task w fr a t)) = [].
Proof.
  destruct t as [pc|cl ep pc|f r pc|d f r pc]; simpl; [done|..]; intros _.
  - destruct pc; simpl; repeat case_match; done.
  - by destruct pc.
  - by destruct pc, d, a as [[]|].
Qed.

Lemma ssh_dials_main w s :
  reachable w s → ssh_dials (trace s).*2 = ssh_dials (own 0 (trace s)).
Proof.
  intros Hs. apply (trace_main_only w); [done|]. apply step_task_no_ssh_dial.
Qed.

Lemma exited_main w s :
  reachable w s → exited s = exit_code (own 0 (trace s)).
Proof.
  intros Hs. rewrite (wf_exit _ (reachable_wf _ _ Hs)). unfold exit_code.
  f_equal. apply (trace_main_only w); [done|]. apply step_task_no_exit.
Qed.

Lemma ssh_dials_app evs1 evs2 :
  ssh_dials (evs1 ++ evs2) = ssh_dials evs1 ++ ssh_dials evs2.
Proof. apply omap_app. Qed.

Lemma sessions_in_order_step w t fr a evs :
  sessions_in_order w t evs →
  sessions_in_order w (next (step_task w fr a t))
                    (evs ++ events (step_task w fr a t)).
Proof.
  destruct t as [pc|cl ep pc|f r pc|d f r pc]; simpl;
    [|by destruct pc; simpl; repeat case_match..].
  unfold sessions_in_order.
  destruct pc as [| | | | | |[|host hosts]|host hosts|cl [|ep eps] hosts| | |];
    simpl; intros Hinv; main_cases; simpl;
    rewrite ?ssh_dials_app, ?exit_code_app, ?app_nil_r; simpl;
    try (destruct Hinv as (-> & Hgot & Heq);
         simpl in Heq; rewrite ?app_nil_r in Heq; rewrite ?app_nil_r);
    try done.
  (* fatal exits and the usage exit: nothing was dialled in this step *)
  all: try (split; [rewrite <-Heq; by first [apply prefix_app_r|idtac]|by left]).
  (* successful calls other than ssh.Dial *)
  all: try (split_and!; [done|done|];
            first [done | unfold config_hosts in *; by repeat case_match; simplify_eq]).
  - (* ssh.Dial failed *)
    split.
    + rewrite <-Heq, fmap_app. simpl. by apply prefix_app, prefix_cons, prefix_nil.
    + right. by eexists _, _, _.
  - (* ssh.Dial succeeded *)
    split_and!; [done| |].
    + apply Forall_app. split; [done|]. by repeat constructor.
    + by rewrite fmap_app, <-app_assoc.
  - (* the process has ended already *)
    destruct Hinv as [Hp [Hg|(good & addr & err & Hd & Hg & ->)]].
    + split; [done|by left].
    + split; [done|]. right. by eexists _, _, _.
Qed.

Lemma reachable_sessions_in_order w s pc :
  reachable w s → tasks s !! 0 = Some (TMain pc) →
  sessions_in_order w (TMain pc) (own 0 (trace s)).
Proof.
  apply (local_invariant w (sessions_in_order w)).
  - by simpl.
  - intros t fr a t' Hin. apply step_task_spawn in Hin.
    repeat case_match; naive_solver.
  - apply sessions_in_order_step.
Qed.

Lemma is_got_lookup dials k addr err :
  Forall is_got dials → dials !! k = Some (addr, Failed err) → False.
Proof.
  rewrite Forall_lookup. intros Hall Hk. by apply Hall in Hk.
Qed.

(** What a step of [main] does to the exit flag, to [main], to the handle
    counter and to the sessions recorded. *)
Lemma main_step_dials w s pc (a : option error) :
  exited s = None → tasks s !! 0 = Some (TMain pc) →
  let e := step_main w (fresh s) a pc in
  let s' := step w (0, a) s in
  exited s' = exit e ∧ tasks s' !! 0 = Some (next e) ∧
  fresh s' = fresh s + used e ∧
  ssh_dials (trace s').*2 = ssh_dials (trace s).*2 ++ ssh_dials (events e).
Proof.
  intros Hex Hmain. simpl. rewrite (step_self _ _ _ _ _ Hex Hmain). simpl.
  apply lookup_lt_Some in Hmain as Hlt.
  rewrite lookup_app_l by (by rewrite length_insert).
  rewrite list_lookup_insert_eq by done.
  by rewrite fmap_app, snd_tagged, ssh_dials_app.
Qed.

(** Lines 91-93: the tunnels of one host are started, then [main] is back
    at the head of the loop. *)
Lemma start_tunnels_run w endpoints s client hosts :
  exited s = None →
  tasks s !! 0 = Some (TMain (MGo client endpoints hosts)) →
  let s' := run w (replicate (S (length endpoints)) (0, None)) s in
  exited s' = None ∧ tasks s' !! 0 = Some (TMain (MRange hosts)) ∧
  fresh s' = fresh s ∧ ssh_dials (trace s').*2 = ssh_dials (trace s).*2.
Proof.
  revert s. induction endpoints as [|endpoint endpoints IH]; intros s Hex Hmain;
    cbv zeta.
  - cbn [replicate length]. rewrite run_cons, run_nil.
    destruct (main_step_dials w s _ None Hex Hmain) as (Hex1 & Hmain1 & Hfresh1 & Hdials1).
    simpl in Hex1, Hmain1, Hfresh1, Hdials1.
    by rewrite Hex1, Hmain1, Hfresh1, Hdials1, Nat.add_0_r, app_nil_r.
  - cbn [replicate length]. rewrite run_cons.
    change (?x :: replicate ?n ?x) with (replicate (S n) x).
    destruct (main_step_dials w s _ None Hex Hmain) as (Hex1 & Hmain1 & Hfresh1 & Hdials1).
    simpl in Hex1, Hmain1, Hfresh1, Hdials1.
    destruct (IH _ Hex1 Hmain1) as (Hex2 & Hmain2 & Hfresh2 & Hdials2).
    cbv zeta in Hex2, Hmain2, Hfresh2, Hdials2.
    by rewrite Hex2, Hmain2, Hfresh2, Hdials2, Hfresh1, Hdials1, Nat.add_0_r, app_nil_r.
Qed.

(** The loop of lines 83-94 when every dial succeeds: one session per host,
    in order. *)
Lemma build_sessions_run w hosts s :
  exited s = None → tasks s !! 0 = Some (TMain (MRange hosts)) →
  let s' := run w (replicate (hosts_steps hosts) (0, None)) s in
  exited s' = None ∧ tasks s' !! 0 = Some (TMain (MRange [])) ∧
  ssh_dials (trace s').*2 = ssh_dials (trace s).*2 ++ sessions_built (fresh s) hosts.
Proof.
  revert s. induction hosts as [|host hosts IH]; intros s Hex Hmain; cbv zeta.
  { simpl. by rewrite app_nil_r. }
  change (hosts_steps (host :: hosts))
    with (2 + (S (length (Endpoints host)) + hosts_steps hosts)).
  change (replicate (2 + ?n) ?x) with (x :: x :: replicate n x).
  rewrite replicate_add, !run_cons, run_app.
  destruct (main_step_dials w s _ None Hex Hmain) as (Hex1 & Hmain1 & Hfresh1 & Hdials1).
  simpl in Hex1, Hmain1, Hfresh1, Hdials1.
  destruct (main_step_dials w _ _ None Hex1 Hmain1) as (Hex2 & Hmain2 & Hfresh2 & Hdials2).
  simpl in Hex2, Hmain2, Hfresh2, Hdials2.
  destruct (start_tunnels_run w _ _ _ _ Hex2 Hmain2) as (Hex3 & Hmain3 & Hfresh3 & Hdials3).
  cbv zeta in Hex3, Hmain3, Hfresh3, Hdials3.
  destruct (IH _ Hex3 Hmain3) as (Hex4 & Hmain4 & Hdials4).
  cbv zeta in Hex4, Hmain4, Hdials4.
  split_and!; [done..|].
  rewrite Hdials4, Hdials3, Hfresh3, Hdials2, Hfresh2, Hdials1, Hfresh1.
  rewrite !Nat.add_0_r, app_nil_r, Nat.add_1_r, <-app_assoc. done.
Qed.

Lemma sessions_built_addresses client hosts :
  (sessions_built client hosts).*1 = Address <$> hosts.
Proof.
  revert client. induction hosts as [|host hosts IH]; intros client; [done|].
  simpl. by rewrite IH.
Qed.

(** C6. [ssh.Dial] is called for the configured hosts one after the other
    in configuration order.  The addresses dialled so far are always a
    prefix of the configured host addresses, and while [main] runs every
    dial so far has succeeded and the addresses dialled, followed by those
    of the hosts still to come, are the configured ones.  A dial that
    succeeds records the session with a new client and takes [main] on to
    start that host's tunnels; from the head of the loop, with every dial
    succeeding, [main] builds one session per remaining host, in order, so
    that all configured hosts have been dialled.  A failed dial is the last
    one ever made and the process has then ended with status 1: when
    [main] is about to dial a host and the dial fails, that step ends the
    process and nothing runs afterwards, so no later host is dialled. *)
Theorem sessions_sequential_first_failure_fatal w s :
  reachable w s →
  let dials := ssh_dials (trace s).*2 in
  dials.*1 `prefix_of` Address <$> config_hosts w ∧
  (∀ k addr err, dials !! k = Some (addr, Failed err) →
     S k = length dials ∧ exited s = Some 1) ∧
  (∀ host hosts err, tasks s !! 0 = Some (TMain (MSshDial host hosts)) →
     let s' := step w (0, Some err) s in
     ssh_dials (trace s').*2 = dials ++ [(Address host, Failed err)] ∧
     exited s' = Some 1 ∧ ∀ sched, run w sched s' = s') ∧
  (∀ pc rest, tasks s !! 0 = Some (TMain pc) → remaining_hosts w pc = Some rest →
     exited s = None ∧ Forall is_got dials ∧
     dials.*1 ++ (Address <$> rest) = Address <$> config_hosts w) ∧
  (∀ host hosts, tasks s !! 0 = Some (TMain (MSshDial host hosts)) →
     let s' := step w (0, None) s in
     ssh_dials (trace s').*2 = dials ++ [(Address host, Got (fresh s))] ∧
     exited s' = None ∧
     tasks s' !! 0 = Some (TMain (MGo (fresh s) (Endpoints host) hosts))) ∧
  (∀ hosts, tasks s !! 0 = Some (TMain (MRange hosts)) →
     let s' := run w (replicate (hosts_steps hosts) (0, None)) s in
     ssh_dials (trace s').*2 = dials ++ sessions_built (fresh s) hosts ∧
     (ssh_dials (trace s').*2).*1 = Address <$> config_hosts w ∧
     tasks s' !! 0 = Some (TMain (MRange [])) ∧ exited s' = None).
Proof.
  intros Hs. cbv zeta.
  destruct (wf_main _ (reachable_wf _ _ Hs)) as [pc Hpc].
  pose proof (reachable_sessions_in_order w s pc Hs Hpc) as Hinv.
  pose proof (ssh_dials_main w s Hs) as Hdials.
  pose proof (exited_main w s Hs) as Hexited.
  unfold sessions_in_order in Hinv.
  assert (∀ rest, remaining_hosts w pc = Some rest →
            exited s = None ∧ Forall is_got (ssh_dials (trace s).*2) ∧
            (ssh_dials (trace s).*2).*1 ++ (Address <$> rest) =
              Address <$> config_hosts w) as Hrunning.
  { intros rest Hrest. rewrite Hrest in Hinv. destruct Hinv as (Hexit & Hgot & Heq).
    by rewrite Hexited, Hdials. }
  split_and!.
  - rewrite Hdials. destruct (remaining_hosts w pc) as [rest|].
    + destruct Hinv as (_ & _ & <-). by apply prefix_app_r.
    + by destruct Hinv.
  - rewrite Hdials, Hexited.
    intros k addr err Hk. destruct (remaining_hosts w pc) as [rest|].
    + destruct Hinv as (_ & Hgot & _). by destruct (is_got_lookup _ _ _ _ Hgot Hk).
    + destruct Hinv as (_ & [Hgot|(good & addr' & err' & Heq & Hgot & Hexit)]).
      { by destruct (is_got_lookup _ _ _ _ Hgot Hk). }
      split; [|done]. rewrite Heq in Hk |- *.
      rewrite length_app. simpl.
      destruct (decide (k < length good)) as [Hlt|Hge].
      * rewrite lookup_app_l in Hk by done.
        by destruct (is_got_lookup _ _ _ _ Hgot Hk).
      * apply lookup_lt_Some in Hk. rewrite length_app in Hk. simpl in Hk. lia.
  - intros host hosts err Hmain.
    assert (pc = MSshDial host hosts) as -> by congruence.
    destruct (Hrunning _ eq_refl) as (Hexit & _ & _).
    destruct (main_step_dials w s _ (Some err) Hexit Hmain) as (Hex1 & _ & _ & Hdials1).
    simpl in Hex1, Hdials1. split_and!; [done..|].
    intros sched. by apply (run_exited _ _ _ 1).
  - intros pc' rest Hmain Hrest.
    assert (pc' = pc) as -> by congruence. by apply Hrunning.
  - intros host hosts Hmain.
    assert (pc = MSshDial host hosts) as -> by congruence.
    destruct (Hrunning _ eq_refl) as (Hexit & _ & _).
    destruct (main_step_dials w s _ None Hexit Hmain) as (Hex1 & Hmain1 & _ & Hdials1).
    by simpl in Hex1, Hmain1, Hdials1.
  - intros hosts Hmain.
    assert (pc = MRange hosts) as -> by congruence.
    destruct (Hrunning _ eq_refl) as (Hexit & _ & Hall).
    destruct (build_sessions_run w hosts s Hexit Hmain) as (Hex1 & Hmain1 & Hdials1).
    split_and!; [done| |done..].
    by rewrite Hdials1, fmap_app, sessions_built_addresses.
Qed.

Lemma sessions_sequential_first_failure_fatal_witness :
  let s := run two_host_world (replicate 7 (0, None)) init in
  let s' := step two_host_world (0, Some (other_error "handshake failed")) s in
  let s0 := run two_host_world (replicate 6 (0, None)) init in
  let s2 := run two_host_world
              (replicate (hosts_steps [demo_host; demo_host2]) (0, None)) s0 in
  (ssh_dials (trace s').*2 =
     [("bastion:22", Failed (other_error "handshake failed"))] ∧
   exited s' = Some 1 ∧ ∀ sched, run two_host_world sched s' = s') ∧
  (ssh_dials (trace s2).*2 = [("bastion:22", Got 2); ("db1:22", Got 3)] ∧
   (ssh_dials (trace s2).*2).*1 = ["bastion:22"; "db1:22"] ∧
   tasks s2 !! 0 = Some (TMain (MRange [])) ∧ exited s2 = None).
Proof.
  intros s s' s0 s2.
  assert (reachable two_host_world s) as Hs by (by exists (replicate 7 (0, None))).
  assert (reachable two_host_world s0) as Hs0 by (by exists (replicate 6 (0, None))).
  destruct (sessions_sequential_first_failure_fatal two_host_world s Hs)
    as (_ & _ & Hfail & _).
  destruct (sessions_sequential_first_failure_fatal two_host_world s0 Hs0)
    as (_ & _ & _ & _ & _ & Hbuild).
  split.
  - apply (Hfail demo_host [demo_host2] (other_error "handshake failed")).
    reflexivity.
  - apply (Hbuild [demo_host; demo_host2]). reflexivity.
Defined.

(** * Tunnels *)

Lemma step_task_returned w fr a t :
  returned t = true → step_task w fr a t = goto t [].
Proof.
  by destruct t as [pc|cl ep pc|f r pc|d f r pc]; destruct pc.
Qed.

(** A goroutine that has returned stays as it is and makes no further call. *)
Lemma returned_forever w sched s i t :
  tasks s !! i = Some t → returned t = true →
  tasks (run w sched s) !! i = Some t ∧
  own i (trace (run w sched s)) = own i (trace s).
Proof.
  revert s. induction sched as [|[j a] sched IH]; intros s Ht Hret; [done|].
  rewrite run_cons.
  assert (tasks (step w (j, a) s) !! i = Some t ∧
          own i (trace (step w (j, a) s)) = own i (trace s)) as [Ht' Htr'].
  { destruct (step_cases w (j, a) s) as [->|(t' & Hex & Ht' & ->)]; [done|].
    apply lookup_lt_Some in Ht as Hlt. simpl in *.
    rewrite lookup_app_l, own_app by (by rewrite length_insert).
    destruct (decide (i = j)) as [->|Hne].
    - assert (t' = t) as -> by congruence.
      rewrite step_task_returned by done. simpl.
      rewrite list_lookup_insert_eq by done. by rewrite app_nil_r.
    - rewrite list_lookup_insert_ne, own_tag_ne by done. by rewrite app_nil_r. }
  rewrite <-Htr'. by apply IH.
Qed.

Lemma unbound_quiet_step w t fr a evs :
  unbound_quiet t evs →
  unbound_quiet (next (step_task w fr a t)) (evs ++ events (step_task w fr a t)).
Proof.
  destruct t as [pc|cl ep pc|f r pc|d f r pc]; simpl.
  - intros _. pose proof (step_task_kind w fr a (TMain pc)) as Hk.
    simpl in Hk. by destruct (next _).
  - destruct pc, a; simpl; try done;
      unfold listens, accepts; rewrite !omap_app; simpl;
      by rewrite !app_nil_r.
  - by destruct pc.
  - by destruct pc.
Qed.

Lemma reachable_unbound_quiet w s i t :
  reachable w s → tasks s !! i = Some t → unbound_quiet t (own i (trace s)).
Proof.
  apply (local_invariant w unbound_quiet).
  - done.
  - intros t0 fr a t' Hin. apply step_task_spawn in Hin.
    repeat case_match; naive_solver.
  - apply unbound_quiet_step.
Qed.

(** C7. When binding the listener of a tunnel fails, that step records the
    failed bind and the log line, the tunnel's goroutine returns, no other
    goroutine is touched, none is started and the process goes on; any other
    goroutine takes its next step exactly as it would have without the
    failure.  The tunnel has not accepted anything before, and whatever
    runs afterwards it stays returned and accepts nothing. *)
Theorem bind_failure_stops_only_that_tunnel w s i client endpoint err :
  reachable w s → exited s = None →
  tasks s !! i = Some (TForward client endpoint FListen) →
  let s' := step w (i, Some err) s in
  trace s' = trace s ++
    [(i, EListen (LocalAddr endpoint) (Failed err));
     (i, ELog ("forwarding port bind error: " ++ Error err))] ∧
  tasks s' = <[i := TForward client endpoint FReturned]> (tasks s) ∧
  exited s' = None ∧ fresh s' = fresh s ∧
  (∀ j a, j ≠ i →
     tasks (step w (j, a) s') !! j = tasks (step w (j, a) s) !! j) ∧
  ∀ sched,
    tasks (run w sched s') !! i = Some (TForward client endpoint FReturned) ∧
    accepts (own i (trace (run w sched s'))) = [].
Proof.
  intros Hs Hex Ht. simpl.
  apply lookup_lt_Some in Ht as Hlt.
  pose proof (reachable_unbound_quiet w s i _ Hs Ht) as [_ Hquiet].
  rewrite (step_self _ _ _ _ _ Hex Ht). simpl.
  rewrite app_nil_r, Nat.add_0_r.
  split_and!; try done.
  - intros j a Hne.
    destruct (tasks s !! j) as [t|] eqn:Hj.
    + rewrite (step_self _ _ _ s t), (step_self _ _ _ _ t); simpl; try done.
      * apply lookup_lt_Some in Hj as Hjlt.
        rewrite !lookup_app_l by (by rewrite !length_insert).
        by rewrite !list_lookup_insert_eq by (by rewrite ?length_insert).
      * by rewrite list_lookup_insert_ne.
    + rewrite !step_absent; simpl; try done.
      * by rewrite list_lookup_insert_ne.
      * by rewrite list_lookup_insert_ne.
  - intros sched.
    set (s' := mkState _ _ _ _).
    destruct (returned_forever w sched s' i (TForward client endpoint FReturned))
      as [Hstay Htrace]; [by apply list_lookup_insert_eq|done|].
    split; [done|]. rewrite Htrace. unfold s'. simpl.
    rewrite own_app. unfold accepts in *. rewrite omap_app, Hquiet.
    change [(i, ?x); (i, ?y)] with (map (pair i) [x; y]).
    by rewrite own_tag_eq.
Qed.

Lemma bind_failure_stops_only_that_tunnel_witness :
  let s := run demo_world demo_before_bind init in
  let s' := step demo_world (1, Some (other_error "address already in use")) s in
  trace s' = trace s ++
    [(1, EListen "127.0.0.1:9001" (Failed (other_error "address already in use")));
     (1, ELog "forwarding port bind error: address already in use")] ∧
  tasks s' = [TMain (MGo 2 [] []); TForward 2 demo_endpoint FReturned] ∧
  exited s' = None.
Proof.
  intros s s'.
  assert (reachable demo_world s) as Hs by (by exists demo_before_bind).
  destruct (bind_failure_stops_only_that_tunnel demo_world s 1 2 demo_endpoint
              (other_error "address already in use") Hs eq_refl eq_refl)
    as (Htrace & Htasks & Hexit & _).
  split_and!; [exact Htrace|exact Htasks|exact Hexit].
Defined.

Lemma phase_step_refl p : phase_step p p = true.
Proof. by destruct p. Qed.

Lemma step_forward_phase fr a client endpoint pc :
  ∃ pc', next (step_forward fr a client endpoint pc) = TForward client endpoint pc' ∧
         phase_step (phase_of pc) (phase_of pc') = true.
Proof. destruct pc, a; simpl; by eexists. Qed.

(** C8. Between any two consecutive states a tunnel either keeps its phase
    or makes one of the moves [Unbound -> Listening], [Unbound -> Stopped],
    [Listening -> Accepting], [Accepting -> Accepting], [Accepting ->
    Stopped].  A failed [Accept] records the failure and the log line and
    stops the tunnel; a failed bind stops it straight from [Unbound]; and a
    stopped tunnel stays stopped and makes no further call (no new bind, no
    new accept), whatever runs afterwards. *)
Theorem tunnel_state_machine w s i client endpoint pc :
  tasks s !! i = Some (TForward client endpoint pc) →
  (∀ c, ∃ pc', tasks (step w c s) !! i = Some (TForward client endpoint pc') ∧
               phase_step (phase_of pc) (phase_of pc') = true) ∧
  (∀ local err, pc = FAccept local → exited s = None →
     let s' := step w (i, Some err) s in
     tasks s' !! i = Some (TForward client endpoint FReturned) ∧
     trace s' = trace s ++
       [(i, EAccept local (Failed err));
        (i, ELog ("local accept error: " ++ Error err))]) ∧
  (∀ err, pc = FListen → exited s = None →
     tasks (step w (i, Some err) s) !! i = Some (TForward client endpoint FReturned)) ∧
  (phase_of pc = Stopped → ∀ sched,
     tasks (run w sched s) !! i = Some (TForward client endpoint pc) ∧
     own i (trace (run w sched s)) = own i (trace s)).
Proof.
  intros Ht. apply lookup_lt_Some in Ht as Hlt. split_and!.
  - intros [j a].
    destruct (step_cases w (j, a) s) as [->|(t & Hex & Hj & ->)].
    { exists pc. by rewrite phase_step_refl. }
    simpl in *. rewrite lookup_app_l by (by rewrite length_insert).
    destruct (decide (i = j)) as [->|Hne].
    + assert (t = TForward client endpoint pc) as -> by congruence.
      rewrite list_lookup_insert_eq by done. simpl.
      destruct (step_forward_phase (fresh s) a client endpoint pc)
        as (pc' & -> & Hstep).
      by exists pc'.
    + rewrite list_lookup_insert_ne by done.
      exists pc. by rewrite phase_step_refl.
  - intros local err -> Hex. simpl.
    rewrite (step_self _ _ _ _ _ Hex Ht). simpl.
    rewrite lookup_app_l by (by rewrite length_insert).
    by rewrite list_lookup_insert_eq.
  - intros err -> Hex.
    by rewrite (step_self_task _ _ _ _ _ Hex Ht).
  - intros Hstop sched. apply returned_forever; [done|]. by destruct pc.
Qed.

Lemma tunnel_state_machine_witness :
  let s := run demo_world demo_accepting init in
  let s' := step demo_world (1, Some (other_error "too many open files")) s in
  tasks s' !! 1 = Some (TForward 2 demo_endpoint FReturned) ∧
  trace s' = trace s ++
    [(1, EAccept 3 (Failed (other_error "too many open files")));
     (1, ELog "local accept error: too many open files")].
Proof.
  intros s s'.
  destruct (tunnel_state_machine demo_world s 1 2 demo_endpoint (FAccept 3) eq_refl)
    as (_ & Haccept & _).
  exact (Haccept 3 (other_error "too many open files") eq_refl eq_refl).
Defined.

(** * Channel-open failures *)

Lemma failing_round_run w s i client endpoint local err :
  exited s = None →
  tasks s !! i = Some (TForward client endpoint (FAccept local)) →
  run w (failing_round i err) s =
    mkState None (tasks s) (S (fresh s))
            (trace s ++ failing_round_calls i client local endpoint err (fresh s)).
Proof.
  intros Hex Ht. apply lookup_lt_Some in Ht as Hlt.
  unfold failing_round. rewrite !run_cons, run_nil.
  rewrite (step_self _ _ _ s _ Hex Ht). simpl. rewrite app_nil_r.
  erewrite step_self; [|done|by apply list_lookup_insert_eq]. simpl.
  rewrite app_nil_r, list_insert_insert_eq, list_insert_id, <-app_assoc by done.
  f_equal. lia.
Qed.

Lemma failing_rounds_run w n s i client endpoint local err :
  exited s = None →
  tasks s !! i = Some (TForward client endpoint (FAccept local)) →
  run w (failing_rounds i err n) s =
    mkState None (tasks s) (fresh s + n)
            (trace s ++ failing_rounds_calls i client local endpoint err (fresh s) n).
Proof.
  revert s. induction n as [|n IH]; intros s Hex Ht.
  - simpl. rewrite app_nil_r, Nat.add_0_r. destruct s. simpl in *. by subst.
  - change (failing_rounds i err (S n))
      with (failing_round i err ++ failing_rounds i err n).
    rewrite run_app.
    rewrite (failing_round_run _ _ _ _ _ _ _ Hex Ht).
    rewrite IH by done. simpl. rewrite <-!app_assoc. f_equal. lia.
Qed.

(** C4. When opening the channel for an accepted connection fails, that
    step records the failed dial and the log line and takes the tunnel back
    to [Accept] on the same listener: no goroutine is started for the
    connection, no other goroutine is touched and the process goes on.
    After any number of further rounds that fail the same way the calls
    made are accepts, failed dials and log lines only, and the next
    [Accept] that succeeds hands its connection to the tunnel. *)
Theorem dial_failure_keeps_tunnel_accepting w s i client endpoint local forward err :
  exited s = None →
  tasks s !! i = Some (TForward client endpoint (FDial local forward)) →
  let s' := step w (i, Some err) s in
  trace s' = trace s ++
    [(i, EClientDial client (RemoteAddr endpoint) (Failed err));
     (i, ELog ("remote dial error: " ++ Error err))] ∧
  tasks s' = <[i := TForward client endpoint (FAccept local)]> (tasks s) ∧
  exited s' = None ∧ fresh s' = fresh s ∧
  ∀ n, let sn := run w (failing_rounds i err n) s' in
       tasks sn = tasks s' ∧ exited sn = None ∧
       trace sn = trace s' ++
         failing_rounds_calls i client local endpoint err (fresh s) n ∧
       let sa := step w (i, None) sn in
       tasks sa !! i = Some (TForward client endpoint (FDial local (fresh s + n))) ∧
       trace sa = trace sn ++ [(i, EAccept local (Got (fresh s + n)))] ∧
       exited sa = None.
Proof.
  intros Hex Ht. simpl. apply lookup_lt_Some in Ht as Hlt.
  rewrite (step_self _ _ _ _ _ Hex Ht). simpl.
  rewrite app_nil_r, Nat.add_0_r.
  split_and!; try done.
  intros n. erewrite failing_rounds_run;
    [|done|by apply list_lookup_insert_eq]. simpl.
  split_and!; try done.
  - erewrite step_self_task; [|done|by apply list_lookup_insert_eq]. done.
  - erewrite step_self; [|done|by apply list_lookup_insert_eq]. done.
  - erewrite step_self; [|done|by apply list_lookup_insert_eq]. done.
Qed.

Lemma dial_failure_keeps_tunnel_accepting_witness :
  let s := run demo_world (demo_accepting ++ [(1, None)]) init in
  let s' := step demo_world (1, Some (other_error "connection refused")) s in
  let s3 := run demo_world (failing_rounds 1 (other_error "connection refused") 3) s' in
  tasks s' = [TMain (MGo 2 [] []); TForward 2 demo_endpoint (FAccept 3)] ∧
  tasks s3 = tasks s' ∧
  tasks (step demo_world (1, None) s3) !! 1 =
    Some (TForward 2 demo_endpoint (FDial 3 8)).
Proof.
  intros s s' s3.
  destruct (dial_failure_keeps_tunnel_accepting demo_world s 1 2 demo_endpoint 3 4
              (other_error "connection refused") eq_refl eq_refl)
    as (_ & Htasks & _ & _ & Hrounds).
  destruct (Hrounds 3) as (Hsame & _ & _ & Hnext & _).
  split_and!; [exact Htasks|exact Hsame|exact Hnext].
Defined.

(** * Relays *)

Lemma closes_app evs1 evs2 : closes (evs1 ++ evs2) = closes evs1 ++ closes evs2.
Proof. apply omap_app. Qed.

Lemma closes_own_global i tr c : c ∈ closes (own i tr) → c ∈ closes tr.*2.
Proof.
  unfold closes. rewrite !list_elem_of_omap.
  intros (ev & Hin & Hev). exists ev. split; [|done].
  apply elem_of_own in Hin. apply list_elem_of_fmap. by exists (i, ev).
Qed.

Lemma copy_closes_step w t fr a evs :
  copy_closes t evs →
  copy_closes (next (step_task w fr a t)) (evs ++ events (step_task w fr a t)).
Proof.
  destruct t as [pc|cl ep pc|f r pc|d f r pc]; simpl.
  - intros _. pose proof (step_task_kind w fr a (TMain pc)) as Hk.
    simpl in Hk. by destruct (next _).
  - by destruct pc, a.
  - by destruct pc.
  - intros Hc. destruct pc; simpl; rewrite closes_app, Hc; try done.
    by destruct d, a as [[]|].
Qed.

Lemma reachable_copy_closes w s i t :
  reachable w s → tasks s !! i = Some t → copy_closes t (own i (trace s)).
Proof.
  apply (local_invariant w copy_closes).
  - done.
  - intros t0 fr a t' Hin. apply step_task_spawn in Hin.
    repeat case_match; naive_solver.
  - apply copy_closes_step.
Qed.

(** From [io.Copy] returning to the end of the deferred [close()]. *)
Lemma copy_finishes w s i d f r a1 a2 a3 :
  exited s = None → tasks s !! i = Some (TCopy d f r CCopy) →
  let s' := run w [(i, a1); (i, a2); (i, a3)] s in
  tasks s' = <[i := TCopy d f r CReturned]> (tasks s) ∧
  closes (trace s').*2 = closes (trace s).*2 ++ [f; r] ∧
  exited s' = None.
Proof.
  intros Hex Ht. simpl. apply lookup_lt_Some in Ht as Hlt.
  rewrite (step_self _ _ _ s _ Hex Ht). simpl. rewrite app_nil_r.
  set (s1 := mkState _ _ _ _).
  rewrite (step_self _ _ _ s1 (TCopy d f r CCloseForward));
    [|done|by apply list_lookup_insert_eq].
  simpl. rewrite app_nil_r, list_insert_insert_eq.
  set (s2 := mkState _ _ _ _).
  rewrite (step_self _ _ _ s2 (TCopy d f r CCloseRemote));
    [|done|by apply list_lookup_insert_eq].
  simpl. rewrite app_nil_r, list_insert_insert_eq.
  split_and!; [done| |done].
  rewrite !fmap_app, !closes_app. simpl. rewrite <-!app_assoc. f_equal.
  by destruct d, a1 as [[]|].
Qed.

(** C2. In every reachable state, a copy goroutine of a relay that has
    finished, in either direction, has called [Close] on both the local
    connection and the channel; and from the moment its [io.Copy] returns,
    with [nil], [io.EOF] or any other error, its next two steps are those
    two calls. *)
Theorem finished_copy_closed_both w s i d f r :
  reachable w s →
  (tasks s !! i = Some (TCopy d f r CReturned) →
   f ∈ closes (trace s).*2 ∧ r ∈ closes (trace s).*2) ∧
  (∀ a1 a2 a3, tasks s !! i = Some (TCopy d f r CCopy) → exited s = None →
     let s' := run w [(i, a1); (i, a2); (i, a3)] s in
     tasks s' !! i = Some (TCopy d f r CReturned) ∧
     closes (trace s').*2 = closes (trace s).*2 ++ [f; r]).
Proof.
  intros Hs. split.
  - intros Ht. pose proof (reachable_copy_closes w s i _ Hs Ht) as Hc.
    simpl in Hc. split; apply (closes_own_global i); rewrite Hc.
    + by left.
    + right. by left.
  - intros a1 a2 a3 Ht Hex.
    destruct (copy_finishes w s i d f r a1 a2 a3 Hex Ht) as (Htasks & Hcl & _).
    split; [|done]. simpl in *. rewrite Htasks.
    apply list_lookup_insert_eq. by eapply lookup_lt_Some.
Qed.

Lemma finished_copy_closed_both_witness :
  let s := run demo_world demo_copying init in
  let s' := run demo_world
              [(3, Some io_EOF); (3, None); (3, Some (other_error "closed"))] s in
  tasks s' !! 3 = Some (TCopy RemoteToLocal 5 6 CReturned) ∧
  closes (trace s').*2 = closes (trace s).*2 ++ [5; 6].
Proof.
  intros s s'.
  assert (reachable demo_world s) as Hs by (by exists demo_copying).
  destruct (finished_copy_closed_both demo_world s 3 RemoteToLocal 5 6 Hs)
    as [_ Hrun].
  exact (Hrun (Some io_EOF) None (Some (other_error "closed")) eq_refl eq_refl).
Defined.

Lemma close_calls_cons c ev evs :
  close_calls c (ev :: evs) =
    match ev with
    | EClose h _ => if decide (h = c) then S (close_calls c evs) else close_calls c evs
    | _ => close_calls c evs
    end.
Proof.
  unfold close_calls, closes. csimpl. destruct ev; try done.
  rewrite filter_cons. by case_decide.
Qed.

(** Calls made by two different goroutines are different calls. *)
Lemma close_calls_two_tasks i j c tr :
  i ≠ j →
  close_calls c (own i tr) + close_calls c (own j tr) ≤ close_calls c tr.*2.
Proof.
  intros Hne. induction tr as [|[k ev] tr IH]; [done|].
  unfold own in *. csimpl. rewrite (close_calls_cons c ev).
  destruct (decide (k = i)) as [Hi|Hi], (decide (k = j)) as [Hj|Hj];
    try congruence; simpl; rewrite ?close_calls_cons;
    destruct ev; try done; try case_decide; lia.
Qed.

Lemma close_calls_pair_l f r evs : closes evs = [f; r] → 1 ≤ close_calls f evs.
Proof.
  unfold close_calls. intros ->. rewrite filter_cons_True by done. simpl. lia.
Qed.

Lemma close_calls_pair_r f r evs : closes evs = [f; r] → 1 ≤ close_calls r evs.
Proof.
  unfold close_calls. intros ->. rewrite filter_cons.
  case_decide; rewrite filter_cons_True by done; simpl; lia.
Qed.

(** C1, as amended. [close()] is not guarded: each of the two copy
    goroutines of a relay, once finished, has itself called [Close] on the
    local connection and then on the channel, so each connection has been
    closed at least twice; and what a [Close] returns is dropped: whatever
    it is, the goroutine moves on to the same place, starts nothing, logs
    nothing and does not end the process. *)
Theorem close_runs_twice_results_dropped w s i j d d' f r :
  reachable w s → i ≠ j →
  tasks s !! i = Some (TCopy d f r CReturned) →
  tasks s !! j = Some (TCopy d' f r CReturned) →
  closes (own i (trace s)) = [f; r] ∧ closes (own j (trace s)) = [f; r] ∧
  2 ≤ close_calls f (trace s).*2 ∧ 2 ≤ close_calls r (trace s).*2 ∧
  ∀ pc a, pc = CCloseForward ∨ pc = CCloseRemote →
    let e := step_copy a d f r pc in
    next e = next (step_copy None d f r pc) ∧ spawn e = [] ∧ exit e = None ∧
    events e = [EClose (match pc with CCloseForward => f | _ => r end) a].
Proof.
  intros Hs Hne Hi Hj.
  pose proof (reachable_copy_closes w s i _ Hs Hi) as Hci.
  pose proof (reachable_copy_closes w s j _ Hs Hj) as Hcj.
  simpl in Hci, Hcj.
  pose proof (close_calls_two_tasks i j f (trace s) Hne) as Hf.
  pose proof (close_calls_two_tasks i j r (trace s) Hne) as Hr.
  pose proof (close_calls_pair_l _ _ _ Hci). pose proof (close_calls_pair_l _ _ _ Hcj).
  pose proof (close_calls_pair_r _ _ _ Hci). pose proof (close_calls_pair_r _ _ _ Hcj).
  split_and!; [done|done|lia|lia|].
  by intros pc a [-> | ->].
Qed.

Lemma close_runs_twice_results_dropped_witness :
  let s := run demo_world demo_schedule init in
  closes (own 3 (trace s)) = [5; 6] ∧ closes (own 4 (trace s)) = [5; 6] ∧
  2 ≤ close_calls 5 (trace s).*2 ∧ 2 ≤ close_calls 6 (trace s).*2.
Proof.
  intros s.
  assert (reachable demo_world s) as Hs by (by exists demo_schedule).
  assert (3 ≠ 4) as Hne by lia.
  destruct (close_runs_twice_results_dropped demo_world s 3 4
              RemoteToLocal LocalToRemote 5 6 Hs Hne eq_refl eq_refl)
    as (H1 & H2 & H3 & H4 & _).
  split_and!; [exact H1|exact H2|exact H3|exact H4].
Defined.

(** C1, as stated, fails: were [close()] guarded by a one-shot flag, no
    connection would see more than one [Close]; in the sample run the local
    connection sees two. *)
Lemma close_is_not_one_shot :
  ¬ (∀ w s c, reachable w s → close_calls c (trace s).*2 ≤ 1).
Proof.
  intros Hguard.
  assert (reachable demo_world (run demo_world demo_schedule init)) as Hs
    by (by exists demo_schedule).
  apply (Hguard _ _ 5) in Hs. vm_compute in Hs. lia.
Qed.

(** * Connections whose channel could not be opened *)

(** Where the connections of a step come from: from the goroutine itself,
    or freshly allocated. *)
Lemma step_task_conns w fr a t :
  let e := step_task w fr a t in
  (∀ h, h ∈ conns_of (next e) → h ∈ conns_of t ∨ (h = fr ∧ used e = 1)) ∧
  (∀ t' h, t' ∈ spawn e → h ∈ conns_of t' → h ∈ conns_of t) ∧
  (∀ h, h ∈ closes (events e) → h ∈ conns_of t) ∧
  (∀ client endpoint local c, next e = TForward client endpoint (FDial local c) →
     c = fr ∧ used e = 1 ∧ closes (events e) = [] ∧ spawn e = [] ∧ conns_of t = []).
Proof.
  cbv zeta. destruct t as [pc|cl ep pc|f r pc|d f r pc]; simpl.
  - destruct pc as [| | | | | |[|host hosts]|host hosts|cl [|ep eps] hosts| | |];
      simpl; main_cases; simpl.
    all: split_and!.
    all: intros.
    all: elems.
    all: done.
  - destruct pc, a; simpl.
    all: split_and!.
    all: intros; simplify_eq.
    all: elems; simpl in *; elems.
    all: rewrite ?elem_of_cons; naive_solver.
  - destruct pc; simpl.
    all: split_and!.
    all: intros; simplify_eq.
    all: elems; simpl in *; elems.
    all: rewrite ?elem_of_cons; naive_solver.
  - destruct pc, d, a as [[]|]; simpl.
    all: split_and!.
    all: intros; simplify_eq.
    all: elems; simpl in *; elems.
    all: rewrite ?elem_of_cons; naive_solver.
Qed.

(** The goroutines after a step: the one that ran, the ones that did not,
    and the ones it started. *)
Lemma lookup_step_tasks (l : list task) i (t' : task) k j (tj : task) :
  i < length l → (<[i := t']> l ++ k) !! j = Some tj →
  (j = i ∧ tj = t') ∨ (j ≠ i ∧ l !! j = Some tj) ∨ (length l ≤ j ∧ tj ∈ k).
Proof.
  intros Hi Hj. destruct (decide (j < length l)) as [Hlt|Hge].
  - rewrite lookup_app_l in Hj by (by rewrite length_insert).
    destruct (decide (j = i)) as [->|Hne].
    + rewrite list_lookup_insert_eq in Hj by done. left. by simplify_eq.
    + rewrite list_lookup_insert_ne in Hj by done. right. by left.
  - rewrite lookup_app_r in Hj by (rewrite length_insert; lia).
    right. right. split; [lia|]. by eapply list_elem_of_lookup_2.
Qed.

Lemma reachable_conn_inv w s : reachable w s → conn_inv s.
Proof.
  induction 1 as [|s [i a] _ IH] using reachable_ind'.
  { split; simpl.
    - intros [|j] t h Hj; simpl in Hj; [|done]. simplify_eq. by intros ?%elem_of_nil.
    - by intros h ?%elem_of_nil.
    - intros [|j] ????; by simpl. }
  destruct (step_cases w (i, a) s) as [->|(t & Hex & Ht & ->)]; [done|].
  simpl in *. apply lookup_lt_Some in Ht as Hlt.
  destruct IH as [Hheld Hclosed Hpending].
  destruct (step_task_conns w (fresh s) a t) as (Hnext & Hspawn & Hcl & Hdial).
  set (e := step_task w (fresh s) a t) in *.
  assert (∀ j tj h, (<[i := next e]> (tasks s) ++ spawn e) !! j = Some tj →
            h ∈ conns_of tj →
            (j = i ∧ (h ∈ conns_of t ∨ h = fresh s ∧ used e = 1)) ∨
            (j ≠ i ∧ ∃ tj', tasks s !! j = Some tj' ∧ h ∈ conns_of tj') ∨
            h ∈ conns_of t) as Hwhere.
  { intros j tj h Hj Hh.
    destruct (lookup_step_tasks _ _ _ _ _ _ Hlt Hj)
      as [[-> ->]|[[Hne Hj']|[_ Hin]]]; [|by eauto 6..].
    left. split; [done|]. by apply Hnext. }
  split; simpl.
  - intros j tj h Hj Hh.
    destruct (Hwhere j tj h Hj Hh) as [[_ [Hold|[-> ->]]]|[(_ & tj' & Hj' & Hh')|Hold]];
      [| lia | |].
    + apply (Hheld i t h) in Hold; [lia|done].
    + apply (Hheld j tj' h) in Hh'; [lia|done].
    + apply (Hheld i t h) in Hold; [lia|done].
  - intros h. rewrite fmap_app, snd_tagged, closes_app, elem_of_app.
    intros [Hold|Hnew].
    + apply Hclosed in Hold. lia.
    + apply Hcl, (Hheld i t h) in Hnew; [lia|done].
  - intros k client endpoint local forward Hk.
    rewrite fmap_app, snd_tagged, closes_app, elem_of_app.
    destruct (lookup_step_tasks _ _ _ _ _ _ Hlt Hk)
      as [[-> Hk']|[[Hne Hk']|[_ Hin]]]; clear Hk; try rename Hk' into Hk.
    + symmetry in Hk. apply Hdial in Hk as (-> & Hused & Hnone & Hnospawn & Ht0).
      rewrite Hnone, Hnospawn, app_nil_r. split.
      * intros [Hold|Hnew%elem_of_nil]; [|done]. apply Hclosed in Hold. lia.
      * intros j tj Hne Hj Hh. rewrite list_lookup_insert_ne in Hj by done.
        apply (Hheld j tj) in Hh; [lia|done].
    + destruct (Hpending k client endpoint local forward Hk) as [Hnot Hothers].
      assert (forward ∉ conns_of t) as Hnt by (by apply (Hothers i)).
      assert (forward < fresh s) as Hlt'.
      { apply (Hheld k _ forward Hk). simpl. by left. }
      split.
      * intros [Hold|Hnew]; [done|]. by apply Hcl in Hnew.
      * intros j tj Hnej Hj Hh.
        destruct (Hwhere j tj forward Hj Hh)
          as [[_ [Hold|[-> _]]]|[(Hji & tj' & Hj' & Hh')|Hold]]; [done|lia| |done].
        by apply (Hothers j tj').
    + apply step_task_spawn in Hin.
      repeat case_match; by simplify_eq.
Qed.

Lemma abandoned_step w c ch s : abandoned c s → abandoned c (step w ch s).
Proof.
  intros (Hlt & Hnot & Hfree). destruct ch as [i a].
  destruct (step_cases w (i, a) s) as [->|(t & Hex & Ht & ->)]; [done|].
  simpl in *. apply lookup_lt_Some in Ht as Hi.
  destruct (step_task_conns w (fresh s) a t) as (Hnext & Hspawn & Hcl & _).
  pose proof (Hfree i t Ht) as Hnt.
  split_and!; simpl.
  - lia.
  - rewrite fmap_app, snd_tagged, closes_app, elem_of_app.
    intros [Hold|Hnew]; [done|]. by apply Hcl in Hnew.
  - intros j tj Hj Hh.
    destruct (lookup_step_tasks _ _ _ _ _ _ Hi Hj)
      as [[-> ->]|[[Hne Hj']|[_ Hin]]].
    + apply Hnext in Hh as [Hold|[-> _]]; [done|lia].
    + by apply (Hfree j tj).
    + by apply (Hspawn tj c) in Hin.
Qed.

Lemma abandoned_run w c sched s : abandoned c s → abandoned c (run w sched s).
Proof.
  revert s. induction sched as [|ch sched IH]; intros s Hs; [done|].
  rewrite run_cons. by apply IH, abandoned_step.
Qed.

(** C5. When opening the channel for an accepted connection fails, the
    connection has not been closed before, the failing step makes no
    [Close] call, and no [Close] is ever called on the connection
    afterwards, whatever runs. *)
Theorem abandoned_connection_never_closed w s i client endpoint local forward err :
  reachable w s → exited s = None →
  tasks s !! i = Some (TForward client endpoint (FDial local forward)) →
  let s' := step w (i, Some err) s in
  (forward ∉ closes (trace s).*2) ∧
  closes (trace s').*2 = closes (trace s).*2 ∧
  ∀ sched, forward ∉ closes (trace (run w sched s')).*2.
Proof.
  intros Hs Hex Ht. simpl.
  destruct (reachable_conn_inv w s Hs) as [Hheld Hclosed Hpending].
  destruct (Hpending i client endpoint local forward Ht) as [Hnot Hothers].
  apply lookup_lt_Some in Ht as Hlt.
  assert (abandoned forward (step w (i, Some err) s)) as Hab.
  { rewrite (step_self _ _ _ _ _ Hex Ht). split_and!; simpl.
    - apply (Hheld i _ forward) in Ht; [lia|]. simpl. by left.
    - by rewrite fmap_app, closes_app, app_nil_r.
    - intros j tj Hj. rewrite app_nil_r in Hj.
      destruct (decide (j = i)) as [->|Hne].
      + rewrite list_lookup_insert_eq in Hj by done. simplify_eq.
        simpl. by intros ?%elem_of_nil.
      + rewrite list_lookup_insert_ne in Hj by done. by apply (Hothers j). }
  split_and!; [done| |].
  - rewrite (step_self _ _ _ _ _ Hex Ht). simpl.
    by rewrite fmap_app, closes_app, app_nil_r.
  - intros sched. by destruct (abandoned_run w forward sched _ Hab) as (_ & ? & _).
Qed.

Lemma abandoned_connection_never_closed_witness :
  let s := run demo_world (demo_accepting ++ [(1, None)]) init in
  let s' := step demo_world (1, Some (other_error "connection refused")) s in
  4 ∉ closes (trace (run demo_world demo_next_relay s')).*2.
Proof.
  intros s s'.
  assert (reachable demo_world s) as Hs by (by exists (demo_accepting ++ [(1, None)])).
  destruct (abandoned_connection_never_closed demo_world s 1 2 demo_endpoint 3 4
              (other_error "connection refused") Hs eq_refl eq_refl)
    as (_ & _ & Hnever).
  exact (Hnever demo_next_relay).
Defined.

(** * Listeners *)

Lemma listens_app evs1 evs2 : listens (evs1 ++ evs2) = listens evs1 ++ listens evs2.
Proof. apply omap_app. Qed.

(** A step turns binds still ahead into binds attempted, hands them to the
    goroutines it starts, or drops them; it never adds one. *)
Lemma step_task_listens w fr a t :
  let e := step_task w fr a t in
  listens (events e) ++ pending_listens w (next e) ++ (spawn e ≫= pending_listens w)
    ⊆+ pending_listens w t.
Proof.
  cbv zeta. destruct t as [pc|cl ep pc|f r pc|d f r pc]; simpl.
  - destruct pc as [| | | | | |[|host hosts]|host hosts|cl [|ep eps] hosts| | |];
      simpl; main_cases; simpl; rewrite ?app_nil_r;
      try apply submseteq_nil_l; try done.
    + unfold config_hosts.
      by match goal with H : w_decode w = _ |- _ => rewrite H end.
    + by rewrite <-app_assoc.
    + apply Permutation_submseteq. symmetry. apply Permutation_cons_append.
  - destruct pc, a; simpl; try apply submseteq_nil_l; done.
  - destruct pc; simpl; apply submseteq_nil_l.
  - destruct pc, d, a as [[]|]; simpl; apply submseteq_nil_l.
Qed.

Lemma reachable_listens_accounted w s :
  reachable w s →
  listens (trace s).*2 ++ (tasks s ≫= pending_listens w)
    ⊆+ endpoint_addrs (config_hosts w) ++ [http_addr].
Proof.
  induction 1 as [|s [i a] _ IH] using reachable_ind'.
  { simpl. by rewrite app_nil_r. }
  destruct (step_cases w (i, a) s) as [->|(t & Hex & Ht & ->)]; [done|].
  simpl in *. apply lookup_lt_Some in Ht as Hlt.
  pose proof (step_task_listens w (fresh s) a t) as Hstep. cbv zeta in Hstep.
  set (e := step_task w (fresh s) a t) in *.
  rewrite insert_take_drop by done.
  rewrite <-(take_drop_middle _ _ _ Ht) in IH at 1.
  etrans; [|exact IH].
  rewrite !bind_app, !bind_cons, fmap_app, snd_tagged, listens_app.
  set (L := listens (trace s).*2). set (Le := listens (events e)) in *.
  set (B1 := take i (tasks s) ≫= pending_listens w).
  set (B2 := drop (S i) (tasks s) ≫= pending_listens w).
  set (Bs := spawn e ≫= pending_listens w) in *.
  trans (L ++ B1 ++ (Le ++ pending_listens w (next e) ++ Bs) ++ B2).
  - apply Permutation_submseteq. solve_Permutation.
  - by do 2 apply submseteq_skips_l; apply submseteq_skips_r.
Qed.

Lemma tunnel_endpoint_insert (l : list task) i t t' :
  l !! i = Some t → tunnel_endpoint t' = tunnel_endpoint t →
  omap tunnel_endpoint (<[i := t']> l) = omap tunnel_endpoint l.
Proof.
  intros Hi Heq. apply lookup_lt_Some in Hi as Hlt.
  rewrite insert_take_drop by done.
  rewrite <-(take_drop_middle _ _ _ Hi) at 3.
  rewrite !omap_app. f_equal. csimpl. by rewrite Heq.
Qed.

Lemma step_task_tunnel_endpoint w fr a t :
  tunnel_endpoint (next (step_task w fr a t)) = tunnel_endpoint t ∧
  (is_main t = false → omap tunnel_endpoint (spawn (step_task w fr a t)) = []).
Proof.
  destruct t as [pc|cl ep pc|f r pc|d f r pc]; simpl.
  - split; [|done]. pose proof (step_task_kind w fr a (TMain pc)) as Hk.
    simpl in Hk. by destruct (next _).
  - by destruct pc, a.
  - by destruct pc.
  - by destruct pc.
Qed.

Lemma reachable_tunnels_in_order w s : reachable w s → tunnels_in_order w s.
Proof.
  induction 1 as [|s [i a] Hs IH] using reachable_ind'.
  { by exists MFlags. }
  destruct (step_cases w (i, a) s) as [->|(t & Hex & Ht & ->)]; [done|].
  destruct IH as (pc & Hmain & Hinv). unfold tunnels_in_order. simpl in Ht |- *.
  apply lookup_lt_Some in Ht as Hlt. apply lookup_lt_Some in Hmain as Hlt0.
  rewrite lookup_app_l by (by rewrite length_insert).
  destruct (step_task_tunnel_endpoint w (fresh s) a t) as [Hnext Hspawn].
  rewrite omap_app, (tunnel_endpoint_insert _ _ t) by done.
  destruct (decide (i = 0)) as [->|Hne].
  - assert (t = TMain pc) as -> by congruence. clear Hnext Hspawn.
    rewrite list_lookup_insert_eq by done. simpl.
    destruct pc as [| | | | | |[|host hosts]|host hosts|cl [|ep eps] hosts| | |];
      simpl in *; main_cases; simpl; eexists; (split; [done|]); simpl;
      rewrite ?app_nil_r in Hinv; rewrite ?app_nil_r; try done.
    + unfold config_hosts in *.
      by match goal with H : w_decode w = _ |- _ => rewrite H in * end.
    + by rewrite <-app_assoc.
  - rewrite list_lookup_insert_ne by done. exists pc. split; [done|].
    rewrite Hspawn, app_nil_r; [done|].
    destruct (is_main t) eqn:Hm; [|done].
    by apply (wf_others _ (reachable_wf _ _ Hs)) in Ht.
Qed.

Lemma bound_listens evs : bound evs ⊆+ listens evs.
Proof.
  induction evs as [|ev evs IH]; [done|].
  unfold bound, listens in *. csimpl.
  destruct ev as [| | | | | | |addr [h|err]| | | | | |]; try done.
  - by apply submseteq_skip.
  - by apply submseteq_cons.
Qed.

Lemma running_not_exited w s pc :
  reachable w s → tasks s !! 0 = Some (TMain pc) → pc ≠ MReturned →
  exited s = None.
Proof.
  intros Hs Hmain Hpc. rewrite (exited_main w s Hs).
  pose proof (reachable_sessions_in_order w s pc Hs Hmain) as Hinv.
  simpl in Hinv. destruct pc; try done; simpl in Hinv; by destruct Hinv.
Qed.

(** C3, as amended. The addresses at which a listener bind is attempted,
    and so those at which one succeeds, are, counted with multiplicity,
    among the local addresses of the configured endpoints plus one more:
    [":0"], which [main] binds for its HTTP server on line 96.  When [main]
    gets there a tunnel has been started for every configured endpoint, in
    order.  Inside the HTTP server [main] stays where it is for as long as
    the server runs, and the process ends with status 1 when it fails. *)
Theorem listeners_are_endpoints_plus_http w s :
  reachable w s →
  listens (trace s).*2 ⊆+ endpoint_addrs (config_hosts w) ++ [http_addr] ∧
  bound (trace s).*2 ⊆+ endpoint_addrs (config_hosts w) ++ [http_addr] ∧
  (∀ pc, tasks s !! 0 = Some (TMain pc) → pc = MServe ∨ (∃ l, pc = MServing l) →
     omap tunnel_endpoint (tasks s) = config_hosts w ≫= Endpoints) ∧
  (tasks s !! 0 = Some (TMain MServe) →
     let s' := step w (0, None) s in
     tasks s' !! 0 = Some (TMain (MServing (fresh s))) ∧
     trace s' = trace s ++ [(0, EListen http_addr (Got (fresh s)))] ∧
     ∀ err, exited (step w (0, Some err) s) = Some 1) ∧
  (∀ l, tasks s !! 0 = Some (TMain (MServing l)) →
     step w (0, None) s = s ∧
     ∀ err, exited (step w (0, Some err) s) = Some 1).
Proof.
  intros Hs.
  assert (listens (trace s).*2 ⊆+ endpoint_addrs (config_hosts w) ++ [http_addr])
    as Hlistens.
  { etrans; [|apply (reachable_listens_accounted w s Hs)].
    by apply submseteq_inserts_r. }
  split_and!; [done| | | |].
  - etrans; [apply bound_listens|done].
  - intros pc Hmain Hpc.
    destruct (reachable_tunnels_in_order w s Hs) as (pc' & Hmain' & Hinv).
    assert (pc' = pc) as -> by congruence.
    destruct Hpc as [->|[l ->]]; cbn [remaining_endpoints] in Hinv;
      by rewrite app_nil_r in Hinv.
  - intros Hmain. simpl.
    assert (exited s = None) as Hex by (by eapply running_not_exited).
    apply lookup_lt_Some in Hmain as Hlt.
    split_and!; [..|intros err; by rewrite (step_self _ _ _ _ _ Hex Hmain)];
      rewrite (step_self _ _ _ _ _ Hex Hmain); simpl; [|done].
    rewrite lookup_app_l by (by rewrite length_insert).
    by rewrite list_lookup_insert_eq.
  - intros l Hmain.
    assert (exited s = None) as Hex by (by eapply running_not_exited).
    split; [|intros err; by rewrite (step_self _ _ _ _ _ Hex Hmain)].
    rewrite (step_self _ _ _ _ _ Hex Hmain). simpl.
    rewrite !app_nil_r, Nat.add_0_r, list_insert_id by done.
    destruct s. simpl in *. by subst.
Qed.

Lemma listeners_are_endpoints_plus_http_witness :
  let s := run demo_world demo_schedule init in
  bound (trace s).*2 ⊆+ ["127.0.0.1:9001"; ":0"] ∧
  step demo_world (0, None) s = s ∧
  exited (step demo_world (0, Some (other_error "closed")) s) = Some 1.
Proof.
  intros s.
  assert (reachable demo_world s) as Hs by (by exists demo_schedule).
  destruct (listeners_are_endpoints_plus_http demo_world s Hs)
    as (_ & Hbound & _ & _ & Hserve).
  destruct (Hserve 3 eq_refl) as [Hstay Hfail].
  split_and!; [exact Hbound|exact Hstay|exact (Hfail _)].
Defined.

(** C3, as stated, fails: in the sample run, whose only endpoint listens on
    127.0.0.1:9001, a listener is bound at [":0"] as well. *)
Lemma http_listener_is_no_endpoint :
  ¬ (∀ w s addr, reachable w s → addr ∈ bound (trace s).*2 →
       addr ∈ endpoint_addrs (config_hosts w)).
Proof.
  intros Honly.
  assert (reachable demo_world (run demo_world demo_startup init)) as Hs
    by (by exists demo_startup).
  apply (Honly _ _ ":0") in Hs.
  - vm_compute in Hs. apply elem_of_cons in Hs as [Hs|Hs]; [done|].
    by apply elem_of_nil in Hs.
  - vm_compute. by left.
Qed.

(** * The start-up script of [main] *)

Lemma flags_test w :
  (String.eqb (w_filename w) "" || String.eqb (w_username w) "")%bool = false ↔
  flags_given w.
Proof. unfold flags_given. by rewrite orb_false_iff, !String.eqb_neq. Qed.

Lemma started_app w evs more : started w evs → started w (evs ++ more).
Proof.
  intros (envConfig & r & agentConn & rest & ? & ? & ? & ? & ->).
  exists envConfig, r, agentConn, (rest ++ more). by rewrite app_assoc.
Qed.

Lemma main_script_step w t fr a evs :
  main_script w t evs →
  main_script w (next (step_task w fr a t)) (evs ++ events (step_task w fr a t)).
Proof.
  destruct t as [pc|cl ep pc|f r pc|d f r pc]; simpl;
    [|by destruct pc; simpl; repeat case_match..].
  destruct pc as [| | | | | |[|host hosts]|host hosts|cl [|ep eps] hosts| | |];
    simpl; intros Hinv; main_cases; simpl;
    try (first [by apply started_app | right; by apply started_app]).
  all: rewrite ?app_nil_r; try done.
  all: repeat match goal with
              | H : (_ || _)%bool = false |- _ => apply flags_test in H
              | H : _ ∧ _ |- _ => destruct H
              | H : ∃ _, _ |- _ => destruct H
              | H : take _ _ = _ |- _ => simpl in H
              end; subst; simpl; unfold startup_failed, started; try done.
  - left. left. split; [|done].
    intros Hf%flags_test. congruence.
  - left. right. left. split; [done|]. by eexists.
  - split_and!; try done. by eexists.
  - left. right. right. left. split_and!; try done. by eexists _, _.
  - split_and!; try done. by eexists.
  - left. do 3 right. split_and!; try done. by eexists _, _, _.
  - split_and!; try done. by eexists _, _.
  - by eexists _, _, _, [].
Qed.

Lemma reachable_main_script w s pc :
  reachable w s → tasks s !! 0 = Some (TMain pc) →
  main_script w (TMain pc) (own 0 (trace s)).
Proof.
  apply (local_invariant w (main_script w)).
  - done.
  - intros t fr a t' Hin. apply step_task_spawn in Hin.
    repeat case_match; by simplify_eq.
  - apply main_script_step.
Qed.

Lemma reachable_alone w s : reachable w s → alone_until_started w s.
Proof.
  induction 1 as [|s [i a] Hs IH] using reachable_ind'.
  { left. by exists MFlags. }
  destruct (step_cases w (i, a) s) as [->|(t & Hex & Ht & ->)]; [done|].
  unfold alone_until_started. simpl in Ht |- *. rewrite own_app.
  destruct IH as [[pc Hpc]|Hstarted]; [|right; by apply started_app].
  rewrite Hpc in Ht |- *. destruct i as [|i]; [|done]. simpl in Ht. simplify_eq.
  destruct (spawn (step_task w (fresh s) a (TMain pc))) as [|t' ts] eqn:Hspawn.
  - left. pose proof (step_task_kind w (fresh s) a (TMain pc)) as Hk.
    destruct (next _) as [pc'| | |]; try done. by exists pc'.
  - right. apply started_app.
    assert (t' ∈ spawn (step_task w (fresh s) a (TMain pc))) as Hin
      by (rewrite Hspawn; by left).
    apply step_task_spawn in Hin.
    assert (tasks s !! 0 = Some (TMain pc)) as Hmain by (by rewrite Hpc).
    pose proof (reachable_main_script w s pc Hs Hmain) as Hscript.
    destruct pc as [| | | | | | | |cl [|ep eps] hosts| | |]; done.
Qed.

(** While [main] is the only goroutine the trace is its own. *)
Lemma alone_trace w s pc :
  reachable w s → tasks s = [TMain pc] → (trace s).*2 = own 0 (trace s).
Proof.
  intros Hs Hpc. pose proof (wf_tags _ (reachable_wf _ _ Hs)) as Htags.
  rewrite Hpc in Htags. simpl in Htags.
  induction Htags as [|[j ev] tr Hj _ IH]; [done|].
  unfold own in *. csimpl. simpl in Hj.
  rewrite decide_True by lia. by rewrite IH.
Qed.

Lemma not_started_alone w s :
  reachable w s → ¬ started w (own 0 (trace s)) →
  ∃ pc, tasks s = [TMain pc] ∧ tasks s !! 0 = Some (TMain pc) ∧
        (trace s).*2 = own 0 (trace s) ∧
        main_script w (TMain pc) (own 0 (trace s)).
Proof.
  intros Hs Hnot. destruct (reachable_alone w s Hs) as [[pc Hpc]|?]; [|done].
  assert (tasks s !! 0 = Some (TMain pc)) as Hmain by (by rewrite Hpc).
  exists pc. split_and!; [done..| |].
  - by eapply alone_trace.
  - by apply reachable_main_script.
Qed.

(** What a step of [main] does to the exit flag and to [main] itself. *)
Lemma main_step w s pc a :
  exited s = None → tasks s !! 0 = Some (TMain pc) →
  exited (step w (0, a) s) = exit (step_main w (fresh s) a pc) ∧
  tasks (step w (0, a) s) !! 0 = Some (next (step_main w (fresh s) a pc)).
Proof.
  intros Hex Hmain. rewrite (step_self _ _ _ _ _ Hex Hmain). simpl.
  split; [done|]. apply lookup_lt_Some in Hmain as Hlt.
  rewrite lookup_app_l by (by rewrite length_insert).
  by rewrite list_lookup_insert_eq.
Qed.

Lemma run_two w c1 c2 s : run w [c1; c2] s = step w c2 (step w c1 s).
Proof. done. Qed.

Lemma run_three w c1 c2 c3 s :
  run w [c1; c2; c3] s = step w c3 (step w c2 (step w c1 s)).
Proof. done. Qed.

Lemma flags_test_false w :
  flags_given w →
  (String.eqb (w_filename w) "" || String.eqb (w_username w) "")%bool = false.
Proof. apply flags_test. Qed.

(** X1. When the configuration file cannot be opened, [main] logs
    "Failed to open config" and ends the process with status 1: in every
    reachable state [main] is the only goroutine, either nothing has been
    recorded yet or the trace is exactly the failed open, the log line and
    the exit, and two steps of [main] from any reachable state end the
    process. *)
Theorem open_failure_is_fatal w err s :
  flags_given w → w_open w = Some err → reachable w s →
  length (tasks s) = 1 ∧
  ((exited s = None ∧ (trace s).*2 = []) ∨
   (exited s = Some 1 ∧ (trace s).*2 = open_failed_calls w err)) ∧
  exited (run w (replicate 2 (0, None)) s) = Some 1.
Proof.
  intros Hflags Hopen Hs.
  destruct (not_started_alone w s Hs) as (pc & Hpc & Hmain & Htrace & Hscript).
  { intros (? & ? & ? & ? & _ & ? & _). congruence. }
  pose proof (exited_main w s Hs) as Hex. rewrite Hpc, Htrace.
  remember (own 0 (trace s)) as evs eqn:Hevs. clear Hevs Htrace.
  change (replicate 2 (0, @None error)) with [(0, @None error); (0, None)].
  rewrite run_two.
  destruct pc; simpl in Hscript; destruct_and?; try congruence;
    try (destruct Hscript as (? & ? & ? & ? & _ & ? & _); congruence).
  - (* line 45 *)
    subst. simpl in Hex. split_and!; [done|by left|].
    destruct (main_step w s MFlags None Hex Hmain) as [Hex1 Hmain1].
    simpl in Hex1, Hmain1. rewrite flags_test_false in Hex1, Hmain1 by done.
    destruct (main_step w _ MOpen None Hex1 Hmain1) as [Hex2 _].
    simpl in Hex2. by rewrite Hopen in Hex2.
  - (* line 52 *)
    subst. simpl in Hex. split_and!; [done|by left|].
    destruct (main_step w s MOpen None Hex Hmain) as [Hex1 _].
    simpl in Hex1. rewrite Hopen in Hex1. by rewrite (step_exited _ _ _ 1).
  - (* the process has ended *)
    destruct Hscript as [[[Hno _]|[(_ & err' & Hopen' & ->)|[(_ & ? & _)|(_ & ? & _)]]]|
                         (? & ? & ? & ? & _ & ? & _)]; try congruence; try done.
    assert (err' = err) as -> by congruence.
    change (exited s = Some 1) in Hex.
    split_and!; [done|by right|].
    by rewrite !(step_exited w _ s 1 Hex).
Qed.

Lemma open_failure_is_fatal_witness :
  let s := run no_file_world (replicate 2 (0, None)) init in
  exited s = Some 1 ∧
  (trace s).*2 =
    [EOpen "hosts.json" (Failed (other_error "no such file or directory"));
     ELog "Failed to open config: no such file or directory";
     EExit 1].
Proof.
  intros s.
  assert (reachable no_file_world s) as Hs by (by exists (replicate 2 (0, None))).
  assert (flags_given no_file_world) as Hflags by done.
  destruct (open_failure_is_fatal no_file_world
              (other_error "no such file or directory") s Hflags eq_refl Hs)
    as (_ & [[Hex _]|[Hex Htrace]] & _); [discriminate Hex|].
  split; [exact Hex|exact Htrace].
Defined.

(** X2. When the configuration file opens but cannot be decoded, [main]
    logs "Failed to unmarshal config" and ends the process with status 1
    before the agent is dialled: [main] stays the only goroutine, the
    trace is empty, the successful open alone, or exactly the open, the
    failed decode, the log line and the exit, and three steps of [main]
    from any reachable state end the process. *)
Theorem decode_failure_is_fatal w err s :
  flags_given w → w_open w = None → w_decode w = inr err → reachable w s →
  length (tasks s) = 1 ∧ agent_dials (trace s).*2 = [] ∧
  ((exited s = None ∧
    ((trace s).*2 = [] ∨ ∃ r, (trace s).*2 = [EOpen (w_filename w) (Got r)])) ∨
   (exited s = Some 1 ∧ ∃ r, (trace s).*2 = decode_failed_calls w r err)) ∧
  exited (run w (replicate 3 (0, None)) s) = Some 1.
Proof.
  intros Hflags Hopen Hdecode Hs.
  destruct (not_started_alone w s Hs) as (pc & Hpc & Hmain & Htrace & Hscript).
  { intros (? & ? & ? & ? & _ & _ & ? & _). congruence. }
  pose proof (exited_main w s Hs) as Hex. rewrite Hpc, Htrace.
  remember (own 0 (trace s)) as evs eqn:Hevs. clear Hevs Htrace.
  change (replicate 3 (0, @None error))
    with [(0, @None error); (0, None); (0, None)].
  rewrite run_three.
  destruct pc; simpl in Hscript; destruct_and?; try congruence;
    try (destruct Hscript as (? & ? & ? & ? & _ & _ & ? & _); congruence).
  - (* line 45 *)
    subst. simpl in Hex. split_and!; [done|done|left; split; [done|by left]|].
    destruct (main_step w s MFlags None Hex Hmain) as [Hex1 Hmain1].
    simpl in Hex1, Hmain1. rewrite flags_test_false in Hex1, Hmain1 by done.
    destruct (main_step w _ MOpen None Hex1 Hmain1) as [Hex2 Hmain2].
    simpl in Hex2, Hmain2. rewrite Hopen in Hex2, Hmain2.
    destruct (main_step w _ (MDecode _) None Hex2 Hmain2) as [Hex3 _].
    simpl in Hex3. by rewrite Hdecode in Hex3.
  - (* line 52 *)
    subst. simpl in Hex. split_and!; [done|done|left; split; [done|by left]|].
    destruct (main_step w s MOpen None Hex Hmain) as [Hex1 Hmain1].
    simpl in Hex1, Hmain1. rewrite Hopen in Hex1, Hmain1.
    destruct (main_step w _ (MDecode _) None Hex1 Hmain1) as [Hex2 _].
    simpl in Hex2. rewrite Hdecode in Hex2.
    by rewrite (step_exited w _ _ 1 Hex2).
  - (* line 58 *)
    subst. simpl in Hex.
    split_and!; [done|done|left; split; [done|right; by eexists]|].
    destruct (main_step w s (MDecode r) None Hex Hmain) as [Hex1 _].
    simpl in Hex1. rewrite Hdecode in Hex1.
    by rewrite !(step_exited w _ _ 1 Hex1).
  - (* the process has ended *)
    destruct Hscript as [[[Hno _]|[(_ & ? & ? & _)|
                          [(_ & _ & r & err' & Hdecode' & ->)|
                           (_ & _ & ? & ? & ? & ? & _)]]]|
                         (? & ? & ? & ? & _ & _ & ? & _)];
      try congruence; try done.
    assert (err' = err) as -> by congruence.
    change (exited s = Some 1) in Hex.
    split_and!; [done|done|right; split; [done|by eexists]|].
    by rewrite !(step_exited w _ s 1 Hex).
Qed.

Lemma decode_failure_is_fatal_witness :
  let s := run bad_json_world (replicate 3 (0, None)) init in
  exited s = Some 1 ∧ agent_dials (trace s).*2 = [].
Proof.
  intros s.
  assert (reachable bad_json_world s) as Hs by (by exists (replicate 3 (0, None))).
  assert (flags_given bad_json_world) as Hflags by done.
  destruct (decode_failure_is_fatal bad_json_world
              (other_error "unexpected end of JSON input") s
              Hflags eq_refl eq_refl Hs)
    as (_ & Hagent & [[Hex _]|[Hex _]] & _); [discriminate Hex|].
  split; [exact Hex|exact Hagent].
Defined.

(** X3. Nothing of the tunnelling starts before the start-up went through:
    in a reachable state in which a session was attempted, a listener bind
    was attempted or a second goroutine exists, both flags were given, the
    file opened and decoded, the agent socket was dialled, and [main]'s
    calls begin with exactly those calls in the order of lines 52-81. *)
Theorem tunnelling_follows_startup w s :
  reachable w s →
  ssh_dials (trace s).*2 ≠ [] ∨ listens (trace s).*2 ≠ [] ∨ 1 < length (tasks s) →
  started w (own 0 (trace s)).
Proof.
  intros Hs Hsome.
  destruct (reachable_alone w s Hs) as [[pc Hpc]|Hstarted]; [|done].
  assert (tasks s !! 0 = Some (TMain pc)) as Hmain by (by rewrite Hpc).
  pose proof (reachable_main_script w s pc Hs Hmain) as Hscript.
  rewrite (alone_trace w s pc Hs Hpc), Hpc in Hsome.
  remember (own 0 (trace s)) as evs eqn:Hevs. clear Hevs.
  assert (ssh_dials evs = [] → listens evs = [] → False) as Hno.
  { intros Hssh Hlisten. rewrite Hssh, Hlisten in Hsome. simpl in Hsome.
    destruct Hsome as [?|[?|?]]; [done..|lia]. }
  destruct pc; simpl in Hscript; try done;
    unfold startup_failed in Hscript;
    repeat match goal with
           | H : _ ∧ _ |- _ => destruct H
           | H : ∃ _, _ |- _ => destruct H
           | H : _ ∨ _ |- _ => destruct H
           end; subst; try done; by destruct Hno.
Qed.

Lemma tunnelling_follows_startup_witness :
  started demo_world (own 0 (trace (run demo_world demo_before_bind init))).
Proof.
  apply tunnelling_follows_startup.
  - by exists demo_before_bind.
  - right. right. vm_compute. constructor.
Defined.

(** * The agent cannot be reached: how the process ends *)

(** C9. When dialling the socket named by [SSH_AUTH_SOCK] fails (the
    variable unset gives the empty path), then in every reachable state no
    [ssh.Dial] and no listener bind has been attempted and no tunnel
    goroutine exists; once the dial has been made the process has ended
    with status 1; the step of [main] that makes the dial records the
    failed dial, the line "Failed to open SSH_AUTH_SOCK: " with the error,
    and the exit with status 1, and nothing runs after it; and five steps
    of [main] from any reachable state end the process: with both flags
    given the status is 1, and with the file opened and decoded as well
    the calls of the whole process are exactly the start-up calls up to the
    failed dial, that log line and the exit. *)
Theorem agent_failure_precedes_sessions w err s :
  w_dial_unix w (w_getenv w "SSH_AUTH_SOCK") = Some err →
  reachable w s →
  ssh_dials (trace s).*2 = [] ∧ listens (trace s).*2 = [] ∧
  length (tasks s) = 1 ∧
  (agent_dials (trace s).*2 ≠ [] → exited s = Some 1) ∧
  exited (run w (replicate 5 (0, None)) s) ≠ None ∧
  (∀ envConfig socket a,
     tasks s !! 0 = Some (TMain (MAgentDial envConfig socket)) →
     let s' := step w (0, a) s in
     socket = w_getenv w "SSH_AUTH_SOCK" ∧
     (trace s').*2 = (trace s).*2 ++
       [ENetDial "unix" socket (Failed err);
        ELog ("Failed to open SSH_AUTH_SOCK: " ++ Error err);
        EExit 1] ∧
     exited s' = Some 1 ∧ ∀ sched, run w sched s' = s') ∧
  (flags_given w →
     let s' := run w (replicate 5 (0, None)) s in
     exited s' = Some 1 ∧
     (w_open w = None → ∀ envConfig, w_decode w = inl envConfig →
        ∃ r, (trace s').*2 = agent_failed_calls w r err)).
Proof.
  intros Hdown Hs.
  pose proof (reachable_agentless w err Hdown s Hs) as Hinv.
  destruct (Hinv) as (pc & Htasks & Hpc & Hssh & Hlisten & Hexit).
  assert (exited (run w (replicate 5 (0, None)) s) ≠ None) as Hends.
  { apply (agentless_exits w err Hdown 5 s pc); [done..|].
    destruct pc; simpl; lia. }
  assert (∀ s0, ¬ started w (own 0 (trace s0))) as Hnot.
  { intros s0 (? & ? & ? & ? & _ & _ & _ & Hup & _). congruence. }
  split_and!; try done.
  - by rewrite Htasks.
  - intros Hdial. destruct (exited s); [|by destruct Hexit].
    destruct Hexit; [by subst|done].
  - intros envConfig socket a Hmain. cbv zeta.
    assert (pc = MAgentDial envConfig socket) as ->.
    { rewrite Htasks in Hmain. simpl in Hmain. congruence. }
    simpl in Hpc. subst socket.
    assert (exited s = None) as Hex.
    { pose proof (exited_main w s Hs) as Hex.
      destruct (not_started_alone w s Hs (Hnot s)) as (pc' & _ & Hmain' & _ & Hscript).
      assert (pc' = MAgentDial envConfig (w_getenv w "SSH_AUTH_SOCK")) as ->
        by congruence.
      simpl in Hscript. destruct Hscript as (_ & _ & _ & _ & r & Hevs).
      by rewrite Hex, Hevs. }
    rewrite (step_self _ _ _ _ _ Hex Hmain). simpl. rewrite Hdown. simpl.
    split_and!; [done| |done|].
    + by rewrite fmap_app.
    + intros sched. by apply (run_exited _ _ _ 1).
  - intros Hflags. cbv zeta.
    set (s' := run w (replicate 5 (0, None)) s) in *.
    assert (reachable w s') as Hs' by (by apply reachable_run).
    pose proof (exited_main w s' Hs') as Hex.
    destruct (not_started_alone w s' Hs' (Hnot s'))
      as (pc' & _ & _ & Htrace & Hscript).
    rewrite Htrace. rewrite Hex in Hends |- *.
    destruct (own 0 (trace s')) as [|ev evs] eqn:Hown; [done|].
    destruct pc'; simpl in Hscript;
      try (exfalso; by apply (Hnot s'); rewrite Hown);
      try (break_hyps; simplify_eq; done).
    destruct Hscript as [Hfailed|Hstarted];
      [|exfalso; by apply (Hnot s'); rewrite Hown].
    destruct Hfailed as [[Hno _]|[(_ & e & Hopen & ->)|[(_ & Hopen & r & e & Hdec & ->)
                        |(_ & Hopen & cfg & r & e & Hdec & Hup & ->)]]].
    + done.
    + split; [done|]. intros Hopen'. congruence.
    + split; [done|]. intros _ cfg Hdec'. congruence.
    + split; [done|]. intros _ _ _. exists r. congruence.
Qed.

Lemma agent_failure_precedes_sessions_witness :
  let s := run no_agent_world (replicate 4 (0, None)) init in
  let s' := run no_agent_world (replicate 5 (0, None)) s in
  (ssh_dials (trace s).*2 = [] ∧ listens (trace s).*2 = [] ∧
   length (tasks s) = 1) ∧
  (exited (step no_agent_world (0, None) s) = Some 1 ∧
   exited s' = Some 1 ∧
   ∃ r, (trace s').*2 =
          agent_failed_calls no_agent_world r
            (other_error "no such file or directory")).
Proof.
  intros s s'.
  assert (reachable no_agent_world s) as Hs by (by exists (replicate 4 (0, None))).
  destruct (agent_failure_precedes_sessions no_agent_world
              (other_error "no such file or directory") s eq_refl Hs)
    as (Hssh & Hlisten & Htasks & _ & _ & Hstep & Hrun).
  split; [by split_and!|].
  destruct (Hstep demo_config "/nonexistent" None eq_refl) as (_ & _ & Hex & _).
  assert (flags_given no_agent_world) as Hflags by (by split).
  destruct (Hrun Hflags) as (Hex' & Htrace).
  split_and!; [exact Hex|exact Hex'|].
  exact (Htrace eq_refl demo_config eq_refl).
Defined.

(** * How the process ends *)

(** A step that ends the process is a step of [main]: the usage return of
    line 47, or a [log.Fatal] further on, the log line and then the exit. *)
Lemma step_task_exit_shape w fr a t n :
  exit (step_task w fr a t) = Some n →
  (n = 0 ∧ t = TMain MFlags ∧ ¬ flags_given w ∧
   events (step_task w fr a t) = [EUsage; EExit 0]) ∨
  (n = 1 ∧ (∃ pc, t = TMain pc ∧ pc ≠ MFlags) ∧ ∃ pre line,
     events (step_task w fr a t) = pre ++ [ELog line; EExit 1] ∧
     exit_code pre = None).
Proof.
  destruct t as [pc|cl ep pc|f r pc|d f r pc]; simpl.
  - destruct pc as [| | | | | |[|host hosts]|host hosts|cl [|ep eps] hosts| | |];
      simpl; repeat case_match; simpl; intros [= <-];
      try (right; split; [done|]; split; [by eexists|];
           eexists [_], _; split; reflexivity).
    left. split_and!; try done. intros Hf%flags_test. congruence.
  - by destruct pc, a.
  - by destruct pc.
  - by destruct pc.
Qed.

(** X4. Once [flag.Parse] has returned, the process ends in one of two
    ways only.  With status 0 when a flag is missing, and then the usage
    text and the exit are all that the process ever did; otherwise both
    flags were given, the status is 1, it is [main] that ended the process
    (no tunnel or relay goroutine ever does), and the last two calls of
    [main] are a log line and the exit: every exit with status 1 was
    logged by [main] just before. *)
Theorem exit_is_usage_or_logged_fatal w s n :
  reachable w s → exited s = Some n →
  (n = 0 ∧ ¬ flags_given w ∧ (trace s).*2 = [EUsage; EExit 0]) ∨
  (n = 1 ∧ flags_given w ∧ tasks s !! 0 = Some (TMain MReturned) ∧
   ∃ pre line, own 0 (trace s) = pre ++ [ELog line; EExit 1] ∧
               exit_code pre = None).
Proof.
  intros Hs. revert n.
  induction Hs as [|s [i a] Hs IH] using reachable_ind'; [done|].
  intros n. destruct (step_cases w (i, a) s) as [->|(t & Hex & Ht & ->)]; [apply IH|].
  simpl in Ht |- *. intros Hexit.
  pose proof (exited_main w s Hs) as Hquiet. rewrite Hex in Hquiet.
  destruct (step_task_exit_shape w (fresh s) a t n Hexit)
    as [(-> & -> & Hno & Hevs)|(-> & (pc & -> & Hpc) & pre & line & Hevs & Hpre)].
  - left. split_and!; [done..|]. rewrite Hevs, fmap_app, snd_tagged.
    assert (i = 0) as -> by (by eapply (wf_others _ (reachable_wf _ _ Hs))).
    destruct (not_started_alone w s Hs) as (pc & _ & Hmain & -> & Hscript).
    { by intros (? & ? & ? & ? & ? & _). }
    assert (pc = MFlags) as -> by congruence.
    simpl in Hscript. by rewrite Hscript.
  - right.
    assert (i = 0) as -> by (by eapply (wf_others _ (reachable_wf _ _ Hs))).
    pose proof (reachable_main_script w s pc Hs Ht) as Hscript.
    assert (next (step_task w (fresh s) a (TMain pc)) = TMain MReturned) as Hnext.
    { clear Hevs. simpl in Hexit |- *.
      destruct pc as [| | | | | |[|host hosts]|host hosts|cl [|ep eps] hosts| | |];
        simpl in Hexit |- *; repeat case_match; by simplify_eq. }
    split_and!; [done| | |].
    + destruct pc; simpl in Hscript; try done;
        try (by destruct Hscript as (? & _));
        try (by destruct Hscript as (? & ? & ? & ? & ? & _)).
    + apply lookup_lt_Some in Ht as Hlt.
      rewrite Hnext, lookup_app_l by (by rewrite length_insert).
      by rewrite list_lookup_insert_eq.
    + exists (own 0 (trace s) ++ pre), line.
      rewrite Hevs, own_app, own_tag_eq, app_assoc. split; [done|].
      by rewrite exit_code_app, <-Hquiet.
Qed.

Lemma exit_is_usage_or_logged_fatal_witness :
  let s := run no_agent_world (replicate 5 (0, None)) init in
  flags_given no_agent_world ∧ tasks s !! 0 = Some (TMain MReturned) ∧
  ∃ pre line, own 0 (trace s) = pre ++ [ELog line; EExit 1] ∧
              exit_code pre = None.
Proof.
  intros s.
  assert (reachable no_agent_world s) as Hs by (by exists (replicate 5 (0, None))).
  destruct (exit_is_usage_or_logged_fatal no_agent_world s 1 Hs eq_refl)
    as [(Hzero & _)|(_ & Hlast)]; [discriminate Hzero|exact Hlast].
Defined.

(** X5. Only [main] ends the process: whatever error the pending call of a
    tunnel, relay or copy goroutine returns, its step leaves the process
    running, leaves every other goroutine where it was, and adds nothing to
    the calls of any other goroutine. *)
Theorem worker_errors_are_contained w s i a :
  reachable w s → exited s = None → i ≠ 0 →
  let s' := step w (i, a) s in
  exited s' = None ∧
  (∀ j, j ≠ i → j < length (tasks s) → tasks s' !! j = tasks s !! j) ∧
  (∀ j, j ≠ i → own j (trace s') = own j (trace s)).
Proof.
  intros Hs Hex Hne. simpl.
  destruct (step_cases w (i, a) s) as [->|(t & _ & Ht & ->)]; [done|].
  simpl in Ht |- *. split_and!.
  - destruct (exit (step_task w (fresh s) a t)) as [n|] eqn:Hexit; [|done].
    destruct (step_task_exit_shape w (fresh s) a t n Hexit)
      as [(_ & -> & _)|(_ & _ & pre & line & Hevs & _)].
    + by apply (wf_others _ (reachable_wf _ _ Hs)) in Ht.
    + rewrite step_task_exit in Hexit.
      destruct (is_main t) eqn:Hmain.
      * by apply (wf_others _ (reachable_wf _ _ Hs)) in Ht.
      * unfold exit_code in Hexit. by rewrite step_task_no_exit in Hexit.
  - intros j Hj Hlt. rewrite lookup_app_l by (by rewrite length_insert).
    by rewrite list_lookup_insert_ne.
  - intros j Hj. by rewrite own_app, own_tag_ne, app_nil_r.
Qed.

Lemma worker_errors_are_contained_witness :
  let s := run demo_world demo_copying init in
  exited (step demo_world (4, Some (other_error "broken pipe")) s) = None.
Proof.
  intros s.
  assert (reachable demo_world s) as Hs by (by exists demo_copying).
  assert (4 ≠ 0) as Hne by discriminate.
  destruct (worker_errors_are_contained demo_world s 4
              (Some (other_error "broken pipe")) Hs eq_refl Hne) as [Hex _].
  exact Hex.
Defined.

(** * The calls of a tunnel *)

Lemma listen_results_app evs1 evs2 :
  listen_results (evs1 ++ evs2) = listen_results evs1 ++ listen_results evs2.
Proof. apply omap_app. Qed.

Lemma accept_listeners_app evs1 evs2 :
  accept_listeners (evs1 ++ evs2) = accept_listeners evs1 ++ accept_listeners evs2.
Proof. apply omap_app. Qed.

Lemma tunnel_script_step w t fr a evs :
  tunnel_script t evs →
  tunnel_script (next (step_task w fr a t)) (evs ++ events (step_task w fr a t)).
Proof.
  destruct t as [pc|cl ep pc|f r pc|d f r pc]; simpl.
  - intros _. pose proof (step_task_kind w fr a (TMain pc)) as Hk.
    simpl in Hk. by destruct (next _).
  - intros [Hcalls Hpc].
    destruct pc, a; simpl;
      rewrite ?listen_results_app, ?accept_listeners_app, ?app_nil_r;
      (split; [first [done|apply Forall_app; split; [done|by repeat constructor]]|]);
      repeat match goal with
             | H : _ ∧ _ |- _ => destruct H
             | H : _ = _ |- _ => rewrite H
             end; simpl; rewrite ?app_nil_r; try done.
    + left. by eexists.
    + right. exists local. split; [done|].
      apply Forall_app. split; [done|by repeat constructor].
    + split; [done|]. apply Forall_app. split; [done|by repeat constructor].
  - by destruct pc.
  - by destruct pc.
Qed.

Lemma reachable_tunnel_script w s i t :
  reachable w s → tasks s !! i = Some t → tunnel_script t (own i (trace s)).
Proof.
  apply (local_invariant w tunnel_script).
  - done.
  - intros t0 fr a t' Hin. apply step_task_spawn in Hin.
    repeat case_match; by simplify_eq.
  - apply tunnel_script_step.
Qed.

Lemma listens_results_length evs : length (listens evs) = length (listen_results evs).
Proof.
  unfold listens, listen_results.
  induction evs as [|ev evs IH]; [done|]. csimpl. destruct ev; simpl; by rewrite ?IH.
Qed.

Lemma tunnel_call_listens client endpoint evs addr :
  Forall (tunnel_call client endpoint) evs → addr ∈ listens evs →
  addr = LocalAddr endpoint.
Proof.
  rewrite Forall_forall. intros Hcalls.
  unfold listens. rewrite list_elem_of_omap. intros (ev & Hin & Hev).
  apply Hcalls in Hin. destruct ev; simplify_eq. done.
Qed.

(** X6. A tunnel binds at most one listener, at its endpoint's local
    address, and every [Accept] it makes is on the listener that bind
    returned: it never rebinds and never accepts on another listener. *)
Theorem tunnel_binds_once_accepts_on_it w s i client endpoint pc :
  reachable w s → tasks s !! i = Some (TForward client endpoint pc) →
  let evs := own i (trace s) in
  length (listens evs) ≤ 1 ∧
  (∀ addr, addr ∈ listens evs → addr = LocalAddr endpoint) ∧
  (∀ l, l ∈ accept_listeners evs → listen_results evs = [Got l]).
Proof.
  intros Hs Ht. simpl.
  destruct (reachable_tunnel_script w s i _ Hs Ht) as [Hcalls Hpc].
  rewrite listens_results_length. split_and!.
  - destruct pc; break_hyps;
      match goal with H : listen_results _ = _ |- _ => rewrite H end;
      simpl; lia.
  - intros addr. by apply (tunnel_call_listens client).
  - intros l Hl.
    assert (∀ l0, Forall (λ l', l' = l0) (accept_listeners (own i (trace s))) →
                  l = l0) as Hsame.
    { intros l0 Hall. rewrite Forall_forall in Hall. by apply Hall. }
    destruct pc; break_hyps;
      try match goal with
          | H : accept_listeners _ = [] |- _ => rewrite H in Hl; by apply elem_of_nil in Hl
          end;
      match goal with
      | H : Forall _ (accept_listeners _) |- _ => by rewrite (Hsame _ H)
      end.
Qed.

Lemma tunnel_binds_once_accepts_on_it_witness :
  let evs := own 1 (trace (run demo_world demo_schedule init)) in
  length (listens evs) ≤ 1 ∧ listen_results evs = [Got 4].
Proof.
  intros evs.
  assert (reachable demo_world (run demo_world demo_schedule init)) as Hs
    by (by exists demo_schedule).
  destruct (tunnel_binds_once_accepts_on_it demo_world _ 1 2 demo_endpoint
              (FAccept 4) Hs eq_refl) as (Hone & _ & Haccept).
  split; [exact Hone|]. apply Haccept. vm_compute. apply list_elem_of_here.
Defined.

(** X7. A tunnel only logs, binds, accepts and opens channels; every
    channel it opens is opened on the session it was started with, to its
    endpoint's remote address.  In particular it never calls [Close],
    neither on its listener nor on a connection it accepted. *)
Theorem tunnel_dials_its_remote_only w s i client endpoint pc :
  reachable w s → tasks s !! i = Some (TForward client endpoint pc) →
  Forall (tunnel_call client endpoint) (own i (trace s)) ∧
  (∀ c addr r, (i, EClientDial c addr r) ∈ trace s →
     c = client ∧ addr = RemoteAddr endpoint) ∧
  closes (own i (trace s)) = [].
Proof.
  intros Hs Ht.
  destruct (reachable_tunnel_script w s i _ Hs Ht) as [Hcalls _].
  split_and!; [done| |].
  - intros c addr r Hin%elem_of_own.
    rewrite Forall_forall in Hcalls. by apply Hcalls in Hin.
  - clear Ht. induction Hcalls as [|ev evs Hev _ IH]; [done|].
    unfold closes in *. csimpl. by destruct ev.
Qed.

Lemma tunnel_dials_its_remote_only_witness :
  closes (own 1 (trace (run demo_world demo_schedule init))) = [].
Proof.
  assert (reachable demo_world (run demo_world demo_schedule init)) as Hs
    by (by exists demo_schedule).
  destruct (tunnel_dials_its_remote_only demo_world _ 1 2 demo_endpoint
              (FAccept 4) Hs eq_refl) as (_ & _ & Hcloses).
  exact Hcloses.
Defined.

(** * Sessions and their tunnels *)

Lemma main_in_config_step w t fr a evs :
  main_in_config w t evs →
  main_in_config w (next (step_task w fr a t)) (evs ++ events (step_task w fr a t)).
Proof.
  destruct t as [pc|cl ep pc|f r pc|d f r pc]; simpl;
    [|by destruct pc; simpl; repeat case_match..].
  destruct pc as [| | | | | |[|host hosts]|host hosts|cl [|ep eps] hosts| | |];
    simpl; intros Hinv; main_cases; simpl; try done.
  - unfold config_hosts. by match goal with H : w_decode w = _ |- _ => rewrite H end.
  - by rewrite Hinv.
  - exists host. split_and!; [done..|]. apply elem_of_app. right. by left.
  - destruct Hinv as (host & Hhosts & _). by eapply suffix_cons_l.
  - destruct Hinv as (host & Hhosts & Heps & Hin).
    exists host. split_and!; [done|by eapply suffix_cons_l|by rewrite app_nil_r].
Qed.

Lemma reachable_main_in_config w s pc :
  reachable w s → tasks s !! 0 = Some (TMain pc) →
  main_in_config w (TMain pc) (own 0 (trace s)).
Proof.
  apply (local_invariant w (main_in_config w)).
  - done.
  - intros t fr a t' Hin. apply step_task_spawn in Hin.
    repeat case_match; by simplify_eq.
  - apply main_in_config_step.
Qed.

(** A goroutine stays the goroutine it is. *)
Lemma next_forward_inv w fr a t client endpoint pc' :
  next (step_task w fr a t) = TForward client endpoint pc' →
  ∃ pc, t = TForward client endpoint pc.
Proof.
  destruct t as [pc|cl ep pc|f r pc|d f r pc]; simpl.
  - pose proof (step_task_kind w fr a (TMain pc)) as Hk. simpl in Hk.
    intros Heq. by rewrite Heq in Hk.
  - destruct (step_forward_phase fr a cl ep pc) as (pc0 & -> & _).
    intros [= <- <- <-]. by exists pc.
  - by destruct pc.
  - by destruct pc.
Qed.

Lemma suffix_head_elem {A} (x : A) l k : x :: l `suffix_of` k → x ∈ k.
Proof. intros [k' ->]. apply elem_of_app. right. by left. Qed.

Lemma reachable_tunnels_have_sessions w s :
  reachable w s → tunnels_have_sessions w s.
Proof.
  induction 1 as [|s [i a] Hs IH] using reachable_ind'.
  { intros [|i] ??? Hi; by simpl in Hi. }
  destruct (step_cases w (i, a) s) as [->|(t & Hex & Ht & ->)]; [done|].
  intros j client endpoint pc Hj. simpl in Ht, Hj |- *.
  apply lookup_lt_Some in Ht as Hlt. rewrite own_app.
  assert (∀ host, session_event w host client ∈ own 0 (trace s) →
            session_event w host client ∈
              own 0 (trace s) ++
              own 0 (map (pair i) (events (step_task w (fresh s) a t)))) as Hmono.
  { intros host Hin. apply elem_of_app. by left. }
  destruct (lookup_step_tasks _ _ _ _ _ _ Hlt Hj) as [[-> Hnext]|[[Hne Hj']|[_ Hin]]].
  - symmetry in Hnext. apply next_forward_inv in Hnext as [pc0 ->].
    destruct (IH _ _ _ _ Ht) as (host & ? & ? & ?). exists host. eauto.
  - destruct (IH _ _ _ _ Hj') as (host & ? & ? & ?). exists host. eauto.
  - apply step_task_spawn in Hin.
    destruct t as [[| | | | | | | |cl [|ep eps] hosts| | |]|? ? []|? ? []|];
      try done; simplify_eq.
    assert (i = 0) as -> by (by eapply (wf_others _ (reachable_wf _ _ Hs))).
    destruct (reachable_main_in_config w s _ Hs Ht) as (host & Hhosts & Heps & Hdial).
    exists host. split_and!.
    + by eapply suffix_head_elem.
    + by eapply suffix_head_elem.
    + by apply Hmono.
Qed.

(** X8. Every tunnel runs on an established session of its own host: for
    each tunnel goroutine the configuration lists a host that has the
    tunnel's endpoint, and [main] has recorded a successful [ssh.Dial] to
    that host's address, with the user name of the [-u] flag, which
    returned the client the tunnel uses. *)
Theorem tunnel_session_was_dialled w s i client endpoint pc :
  reachable w s → tasks s !! i = Some (TForward client endpoint pc) →
  ∃ host, host ∈ config_hosts w ∧ endpoint ∈ Endpoints host ∧
          (0, ESshDial (Address host) (w_username w) (Got client)) ∈ trace s.
Proof.
  intros Hs Ht.
  destruct (reachable_tunnels_have_sessions w s Hs _ _ _ _ Ht)
    as (host & Hhost & Hep & Hdial).
  exists host. split_and!; [done..|]. by apply elem_of_own.
Qed.

Lemma tunnel_session_was_dialled_witness :
  ∃ host, host ∈ config_hosts demo_world ∧ demo_endpoint ∈ Endpoints host ∧
          (0, ESshDial (Address host) "ops" (Got 2)) ∈
            trace (run demo_world demo_schedule init).
Proof.
  apply (tunnel_session_was_dialled demo_world _ 1 2 demo_endpoint (FAccept 4)).
  - by exists demo_schedule.
  - reflexivity.
Defined.

(** * Who owns a connection *)

Lemma submseteq_NoDup {A} (l k : list A) : l ⊆+ k → NoDup k → NoDup l.
Proof.
  intros (l' & Hsub & Hperm)%submseteq_sublist_l Hk.
  apply (sublist_NoDup l l'); [|done]. by rewrite Hperm.
Qed.

(** A step hands connections over or drops them; a new one is the handle
    just given out. *)
Lemma step_task_relay_conns w fr a t :
  let e := step_task w fr a t in
  relay_conns (next e) ++ (spawn e ≫= relay_conns)
    ⊆+ relay_conns t ++ replicate (used e) fr ∧
  used e ≤ 1.
Proof.
  cbv zeta. destruct t as [pc|cl ep pc|f r pc|d f r pc]; simpl.
  - destruct pc as [| | | | | |[|host hosts]|host hosts|cl [|ep eps] hosts| | |];
      simpl; main_cases; simpl; split; try lia; apply submseteq_nil_l.
  - destruct pc, a; simpl; split; try lia; try apply submseteq_nil_l; done.
  - destruct pc; simpl; split; try lia; done.
  - destruct pc; simpl; split; try lia; done.
Qed.

Lemma reachable_conns_exclusive w s : reachable w s → conns_exclusive s.
Proof.
  induction 1 as [|s [i a] _ IH] using reachable_ind'.
  { split; simpl; constructor. }
  destruct (step_cases w (i, a) s) as [->|(t & Hex & Ht & ->)]; [done|].
  destruct IH as [Hnodup Hlt]. simpl in Ht. apply lookup_lt_Some in Ht as Hi.
  destruct (step_task_relay_conns w (fresh s) a t) as [Hstep Hused].
  set (e := step_task w (fresh s) a t) in *.
  assert ((<[i := next e]> (tasks s) ++ spawn e) ≫= relay_conns
            ⊆+ (tasks s ≫= relay_conns) ++ replicate (used e) (fresh s)) as Hsub.
  { rewrite insert_take_drop by done.
    rewrite <-(take_drop_middle _ _ _ Ht) at 3.
    rewrite !bind_app, !bind_cons.
    set (B1 := take i (tasks s) ≫= relay_conns).
    set (B2 := drop (S i) (tasks s) ≫= relay_conns).
    set (Bs := spawn e ≫= relay_conns) in *.
    trans (B1 ++ (relay_conns (next e) ++ Bs) ++ B2).
    { apply Permutation_submseteq. solve_Permutation. }
    trans (B1 ++ (relay_conns t ++ replicate (used e) (fresh s)) ++ B2).
    { by apply submseteq_skips_l, submseteq_skips_r. }
    apply Permutation_submseteq. solve_Permutation. }
  split; simpl.
  - apply (submseteq_NoDup _ _ Hsub). apply NoDup_app. split_and!; [done| |].
    + intros c Hc Hin%elem_of_replicate_inv. subst.
      rewrite Forall_forall in Hlt. apply Hlt in Hc. lia.
    + destruct (used e) as [|[|n]]; [constructor|apply NoDup_singleton|lia].
  - apply Forall_forall. intros c Hc.
    apply (elem_of_submseteq _ _ _ Hc) in Hsub.
    apply elem_of_app in Hsub as [Hold|Hnew].
    + rewrite Forall_forall in Hlt. apply Hlt in Hold. lia.
    + apply elem_of_replicate in Hnew as [-> Hne]. fold e. lia.
Qed.

(** In a concatenation without duplicates, different positions contribute
    different elements. *)
Lemma bind_NoDup_disjoint {A B} (g : A → list B) (l : list A) i j a b x :
  NoDup (l ≫= g) → i < j → l !! i = Some a → l !! j = Some b →
  x ∈ g a → x ∈ g b → False.
Proof.
  intros Hnodup Hij Hi Hj Ha Hb.
  rewrite <-(take_drop_middle _ _ _ Hi) in Hnodup.
  rewrite bind_app, bind_cons in Hnodup.
  apply NoDup_app in Hnodup as (_ & _ & Hnodup).
  apply NoDup_app in Hnodup as (_ & Hdisj & _).
  apply (Hdisj x Ha). apply list_elem_of_bind. exists b. split; [done|].
  apply list_elem_of_lookup. exists (j - S i).
  rewrite lookup_drop. by replace (S i + (j - S i)) with j by lia.
Qed.

Lemma conns_exclusive_between w s i j ti tj c :
  reachable w s → i ≠ j → tasks s !! i = Some ti → tasks s !! j = Some tj →
  c ∈ relay_conns ti → c ∈ relay_conns tj → False.
Proof.
  intros Hs Hne Hi Hj Hci Hcj.
  destruct (reachable_conns_exclusive w s Hs) as [Hnodup _].
  destruct (decide (i < j)).
  - by eapply (bind_NoDup_disjoint relay_conns (tasks s) i j).
  - eapply (bind_NoDup_disjoint relay_conns (tasks s) j i); [done|lia|done..].
Qed.

Lemma conns_exclusive_within w s i t :
  reachable w s → tasks s !! i = Some t → NoDup (relay_conns t).
Proof.
  intros Hs Hi. destruct (reachable_conns_exclusive w s Hs) as [Hnodup _].
  rewrite <-(take_drop_middle _ _ _ Hi) in Hnodup.
  rewrite bind_app, bind_cons in Hnodup.
  apply NoDup_app in Hnodup as (_ & _ & Hnodup).
  by apply NoDup_app in Hnodup as (? & _ & _).
Qed.

(** X9. No two relays share a connection: the local connection and the
    channel of a relay are different, neither belongs to another relay,
    and neither is a connection that a tunnel still holds while it waits
    for a channel. *)
Theorem relays_share_no_connection w s i j f r pc f' r' pc' :
  reachable w s → i ≠ j →
  tasks s !! i = Some (THandle f r pc) →
  tasks s !! j = Some (THandle f' r' pc') →
  f ≠ r ∧ f ≠ f' ∧ f ≠ r' ∧ r ≠ f' ∧ r ≠ r' ∧
  ∀ k client endpoint local forward,
    tasks s !! k = Some (TForward client endpoint (FDial local forward)) →
    forward ≠ f ∧ forward ≠ r.
Proof.
  intros Hs Hne Hi Hj.
  pose proof (conns_exclusive_within w s i _ Hs Hi) as Hin. simpl in Hin.
  apply NoDup_cons in Hin as [Hfr _].
  pose proof (λ c, conns_exclusive_between w s i j _ _ c Hs Hne Hi Hj) as Hij.
  simpl in Hij.
  split_and!.
  - intros ->. apply Hfr. by left.
  - intros ->. apply (Hij f'); by left.
  - intros ->. apply (Hij r'); [by left|right; by left].
  - intros ->. apply (Hij f'); [right; by left|by left].
  - intros ->. apply (Hij r'); right; by left.
  - intros k client endpoint local forward Hk.
    assert (k ≠ i) as Hki by (intros ->; congruence).
    pose proof (conns_exclusive_between w s k i _ _ forward Hs Hki Hk Hi) as Hc.
    simpl in Hc.
    split; intros ->; apply Hc; first [by left|right; by left].
Qed.

Lemma relays_share_no_connection_witness :
  5 ≠ 6 ∧ 5 ≠ 7 ∧ 5 ≠ 8 ∧ 6 ≠ 7 ∧ 6 ≠ 8.
Proof.
  assert (reachable demo_world (run demo_world demo_two_relays init)) as Hs
    by (by exists demo_two_relays).
  assert (2 ≠ 5) as Hne by discriminate.
  destruct (relays_share_no_connection demo_world _ 2 5 5 6 HReturned 7 8 HGo1
              Hs Hne eq_refl eq_refl) as (H1 & H2 & H3 & H4 & H5 & _).
  split_and!; [exact H1|exact H2|exact H3|exact H4|exact H5].
Defined.

(** * The goroutines of a relay *)

Lemma step_task_goroutine w fr a t :
  goroutine_of (next (step_task w fr a t)) = goroutine_of t.
Proof.
  destruct t as [pc|cl ep pc|f r pc|d f r pc]; simpl.
  - pose proof (step_task_kind w fr a (TMain pc)) as Hk.
    simpl in Hk. by destruct (next _).
  - by destruct (step_forward_phase fr a cl ep pc) as (pc0 & -> & _).
  - by destruct pc.
  - by destruct pc.
Qed.

(** A goroutine, once started, is there for good. *)
Lemma step_persist w c s j tj :
  tasks s !! j = Some tj →
  ∃ tj', tasks (step w c s) !! j = Some tj' ∧ goroutine_of tj' = goroutine_of tj.
Proof.
  intros Hj. destruct c as [i a].
  destruct (step_cases w (i, a) s) as [->|(t & Hex & Ht & ->)]; [by exists tj|].
  simpl in Ht |- *. apply lookup_lt_Some in Hj as Hlt.
  rewrite lookup_app_l by (by rewrite length_insert).
  destruct (decide (j = i)) as [->|Hne].
  - rewrite list_lookup_insert_eq by done. eexists. split; [done|].
    assert (t = tj) as -> by congruence. apply step_task_goroutine.
  - rewrite list_lookup_insert_ne by done. by exists tj.
Qed.

Lemma goroutine_of_copy t d f r pc :
  goroutine_of t = goroutine_of (TCopy d f r pc) → ∃ pc', t = TCopy d f r pc'.
Proof. destruct t; simpl; intros [=]; subst. by eexists. Qed.

Lemma goroutine_of_handle t f r pc :
  goroutine_of t = goroutine_of (THandle f r pc) → ∃ pc', t = THandle f r pc'.
Proof. destruct t; simpl; intros [=]; subst. by eexists. Qed.

Lemma persist_copy w c s k d f r pc :
  tasks s !! k = Some (TCopy d f r pc) →
  ∃ pc', tasks (step w c s) !! k = Some (TCopy d f r pc').
Proof.
  intros (t' & Hk & Hid)%(step_persist w c).
  apply goroutine_of_copy in Hid as [pc' ->]. by exists pc'.
Qed.

Lemma persist_handle w c s j f r pc :
  tasks s !! j = Some (THandle f r pc) →
  ∃ pc', tasks (step w c s) !! j = Some (THandle f r pc').
Proof.
  intros (t' & Hj & Hid)%(step_persist w c).
  apply goroutine_of_handle in Hid as [pc' ->]. by exists pc'.
Qed.

Lemma reachable_relay_family w s : reachable w s → relay_family s.
Proof.
  induction 1 as [|s [i a] _ IH] using reachable_ind'.
  { split_and!; intros [|?]; simpl; intros; simplify_eq; done. }
  destruct (step_cases w (i, a) s) as [Hsame|(t & Hex & Ht & Hstep)];
    [by rewrite Hsame|].
  destruct IH as (Hparent & Hfirst & Hsecond).
  simpl in Ht. apply lookup_lt_Some in Ht as Hlt.
  assert (tasks (step w (i, a) s) !! i = Some (next (step_task w (fresh s) a t)))
    as Hself by (by apply step_self_task).
  assert (∀ child, spawn (step_task w (fresh s) a t) = [child] →
            tasks (step w (i, a) s) !! length (tasks s) = Some child) as Hchild.
  { intros child Hspawn. rewrite Hstep. simpl.
    rewrite lookup_app_r by (by rewrite length_insert).
    rewrite length_insert, Nat.sub_diag, Hspawn. done. }
  assert (∀ j tj, tasks (step w (i, a) s) !! j = Some tj →
            (j = i ∧ tj = next (step_task w (fresh s) a t)) ∨
            (j ≠ i ∧ tasks s !! j = Some tj) ∨
            tj ∈ spawn (step_task w (fresh s) a t)) as Hwhere.
  { intros j tj Hj. rewrite Hstep in Hj. simpl in Hj.
    destruct (lookup_step_tasks _ _ _ _ _ _ Hlt Hj) as [?|[?|[_ ?]]]; eauto. }
  pose proof (step_task_goroutine w (fresh s) a t) as Hid.
  split_and!.
  - intros k d f r pc Hk.
    destruct (Hwhere _ _ Hk) as [[-> Hnext]|[[Hne Hk']|Hin]].
    + rewrite <-Hnext in Hid. symmetry in Hid.
      apply goroutine_of_copy in Hid as [pc0 ->].
      destruct (Hparent _ _ _ _ _ Ht) as (j & pc' & Hj).
      exists j. by apply (persist_handle w (i, a)) in Hj.
    + destruct (Hparent _ _ _ _ _ Hk') as (j & pc' & Hj).
      exists j. by apply (persist_handle w (i, a)) in Hj.
    + apply step_task_spawn in Hin.
      destruct t as [[| | | | | | | |cl [|ep eps] hosts| | |]|? ? []|? ? []|];
        try done; simplify_eq; simpl in Hself; exists i; by eexists.
  - intros j f r pc' Hj Hpc'.
    destruct (Hwhere _ _ Hj) as [[-> Hnext]|[[Hne Hj']|Hin]].
    + rewrite <-Hnext in Hid. symmetry in Hid.
      apply goroutine_of_handle in Hid as [pc0 ->].
      destruct pc0; simpl in Hnext; simplify_eq.
      * exists (length (tasks s)), CCopy. by apply Hchild.
      * destruct (Hfirst _ _ _ _ Ht) as (k & pc & Hk); [done|].
        exists k. by apply (persist_copy w (i, a)) in Hk.
      * destruct (Hfirst _ _ _ _ Ht) as (k & pc & Hk); [done|].
        exists k. by apply (persist_copy w (i, a)) in Hk.
    + destruct (Hfirst _ _ _ _ Hj' Hpc') as (k & pc & Hk).
      exists k. by apply (persist_copy w (i, a)) in Hk.
    + apply step_task_spawn in Hin.
      destruct t as [[| | | | | | | |cl [|ep eps] hosts| | |]|? ? []|? ? []|];
        try done; by simplify_eq.
  - intros j f r Hj.
    destruct (Hwhere _ _ Hj) as [[-> Hnext]|[[Hne Hj']|Hin]].
    + rewrite <-Hnext in Hid. symmetry in Hid.
      apply goroutine_of_handle in Hid as [pc0 ->].
      destruct pc0; simpl in Hnext; simplify_eq.
      * exists (length (tasks s)), CCopy. by apply Hchild.
      * destruct (Hsecond _ _ _ Ht) as (k & pc & Hk).
        exists k. by apply (persist_copy w (i, a)) in Hk.
    + destruct (Hsecond _ _ _ Hj') as (k & pc & Hk).
      exists k. by apply (persist_copy w (i, a)) in Hk.
    + apply step_task_spawn in Hin.
      destruct t as [[| | | | | | | |cl [|ep eps] hosts| | |]|? ? []|? ? []|];
        try done; by simplify_eq.
Qed.

(** X10. A relay copies in both directions and nothing copies outside a
    relay: every copy goroutine works on the pair of a relay that exists,
    and a relay whose [handleClient] has returned has started a
    remote-to-local and a local-to-remote copy goroutine on its pair. *)
Theorem relay_copies_both_directions w s :
  reachable w s →
  (∀ k d f r pc, tasks s !! k = Some (TCopy d f r pc) →
     ∃ j pc', tasks s !! j = Some (THandle f r pc')) ∧
  (∀ j f r, tasks s !! j = Some (THandle f r HReturned) →
     ∃ k1 k2 pc1 pc2,
       tasks s !! k1 = Some (TCopy RemoteToLocal f r pc1) ∧
       tasks s !! k2 = Some (TCopy LocalToRemote f r pc2)).
Proof.
  intros Hs. destruct (reachable_relay_family w s Hs) as (Hparent & Hfirst & Hsecond).
  split; [done|]. intros j f r Hj.
  destruct (Hfirst _ _ _ _ Hj) as (k1 & pc1 & Hk1); [done|].
  destruct (Hsecond _ _ _ Hj) as (k2 & pc2 & Hk2).
  by exists k1, k2, pc1, pc2.
Qed.

Lemma relay_copies_both_directions_witness :
  ∃ k1 k2 pc1 pc2,
    tasks (run demo_world demo_copying init) !! k1 = Some (TCopy RemoteToLocal 5 6 pc1) ∧
    tasks (run demo_world demo_copying init) !! k2 = Some (TCopy LocalToRemote 5 6 pc2).
Proof.
  assert (reachable demo_world (run demo_world demo_copying init)) as Hs
    by (by exists demo_copying).
  destruct (relay_copies_both_directions demo_world _ Hs) as [_ Hboth].
  exact (Hboth 2 5 6 eq_refl).
Defined.

(** * The life of a copy goroutine *)

Lemma copy_log_length d a : length (copy_log d a) ≤ 1.
Proof. destruct d, a as [[]|]; simpl; lia. Qed.

Lemma copy_script_step w t fr a evs :
  copy_script t evs →
  copy_script (next (step_task w fr a t)) (evs ++ events (step_task w fr a t)).
Proof.
  destruct t as [pc|cl ep pc|f r pc|d f r pc]; simpl.
  - intros _. pose proof (step_task_kind w fr a (TMain pc)) as Hk.
    simpl in Hk. by destruct (next _).
  - by destruct pc, a.
  - by destruct pc.
  - intros (a1 & a2 & a3 & ->). unfold copy_life.
    destruct pc; simpl.
    + exists a, None, None. by destruct d, a as [[]|].
    + exists a1, a, None. by destruct d, a1 as [[]|].
    + exists a1, a2, a. by destruct d, a1 as [[]|].
    + exists a1, a2, a3. by rewrite app_nil_r.
Qed.

Lemma reachable_copy_script w s i t :
  reachable w s → tasks s !! i = Some t → copy_script t (own i (trace s)).
Proof.
  apply (local_invariant w copy_script).
  - done.
  - intros t0 fr a t' Hin. apply step_task_spawn in Hin.
    repeat case_match; simplify_eq; try done; by exists None, None, None.
  - apply copy_script_step.
Qed.

(** X11. A copy goroutine that has finished made exactly these calls, in
    this order: one [io.Copy] in its direction, one log line if and only if
    that copy returned an error other than [io.EOF], then [Close] on the
    local connection and [Close] on the channel.  At any earlier moment
    its calls are a beginning of that list, so it never closes anything
    before its [io.Copy] has returned. *)
Theorem copy_goroutine_life w s i d f r pc :
  reachable w s → tasks s !! i = Some (TCopy d f r pc) →
  ∃ a a2 a3,
    own i (trace s) `prefix_of` copy_life d f r a a2 a3 ∧
    (pc = CReturned → own i (trace s) = copy_life d f r a a2 a3) ∧
    (pc = CCopy → own i (trace s) = []) ∧
    (copy_log d a = [] ↔ a = None ∨ a = Some io_EOF) ∧
    (∀ line, ELog line ∈ copy_log d a →
       ∃ err, a = Some err ∧ err ≠ io_EOF ∧
              line = (match d with
                      | RemoteToLocal => "copy <remote->local> error: "
                      | LocalToRemote => "copy <local->remote> error: "
                      end ++ Error err)%string).
Proof.
  intros Hs Ht.
  destruct (reachable_copy_script w s i _ Hs Ht) as (a & a2 & a3 & Hevs).
  exists a, a2, a3. split_and!.
  - rewrite Hevs. apply prefix_take.
  - intros ->. rewrite Hevs. apply take_ge. unfold copy_life. simpl.
    rewrite length_app. simpl. lia.
  - by intros ->.
  - destruct d, a as [[]|]; simpl; split; intros; try done; by eauto;
      by destruct_or?.
  - intros line Hline.
    destruct d, a as [[|msg]|]; simpl in Hline;
      try (by apply elem_of_nil in Hline);
      apply list_elem_of_singleton in Hline; simplify_eq;
      by exists (other_error msg).
Qed.

Lemma copy_goroutine_life_witness :
  ∃ a a2 a3,
    own 4 (trace (run demo_world demo_schedule init)) =
      copy_life LocalToRemote 5 6 a a2 a3.
Proof.
  assert (reachable demo_world (run demo_world demo_schedule init)) as Hs
    by (by exists demo_schedule).
  destruct (copy_goroutine_life demo_world _ 4 LocalToRemote 5 6 CReturned
              Hs eq_refl) as (a & a2 & a3 & _ & Hlife & _).
  exists a, a2, a3. exact (Hlife eq_refl).
Defined.

(** * Rounds of the accept loop *)

Lemma serving_round_run w s i client endpoint local :
  exited s = None →
  tasks s !! i = Some (TForward client endpoint (FAccept local)) →
  run w (serving_round i) s =
    mkState None (tasks s ++ [THandle (fresh s) (S (fresh s)) HGo1])
            (S (S (fresh s)))
            (trace s ++ [(i, EAccept local (Got (fresh s)));
                         (i, EClientDial client (RemoteAddr endpoint)
                               (Got (S (fresh s))))]).
Proof.
  intros Hex Ht. apply lookup_lt_Some in Ht as Hlt.
  unfold serving_round. simpl.
  rewrite (step_self _ _ _ s _ Hex Ht). simpl. rewrite app_nil_r.
  set (s1 := mkState _ _ _ _).
  rewrite (step_self _ _ _ s1 (TForward client endpoint (FDial local (fresh s))));
    [|done|by apply list_lookup_insert_eq].
  simpl. rewrite app_nil_r, list_insert_insert_eq.
  set (s2 := mkState _ _ _ _).
  rewrite (step_self _ _ _ s2
             (TForward client endpoint (FGo local (fresh s) (fresh s + 1))));
    [|done|by apply list_lookup_insert_eq].
  simpl. rewrite app_nil_r, list_insert_insert_eq, list_insert_id, <-app_assoc by done.
  simpl. f_equal; [|lia|]; by replace (fresh s + 1) with (S (fresh s)) by lia.
Qed.

(** X12. The accept loop never waits for a relay: [n] rounds of a tunnel
    alone, each an [Accept], a [client.Dial] and the start of the relay
    goroutine, leave the tunnel at [Accept] with [n] new relays started,
    none of which has run, each on its own accepted connection and
    channel; the process goes on and nothing has been closed. *)
Theorem accept_loop_never_waits w n s i client endpoint local :
  exited s = None →
  tasks s !! i = Some (TForward client endpoint (FAccept local)) →
  let sn := run w (serving_rounds i n) s in
  tasks sn = tasks s ++ relays_started (fresh s) n ∧
  exited sn = None ∧ fresh sn = fresh s + 2 * n ∧
  closes (trace sn).*2 = closes (trace s).*2.
Proof.
  revert s. induction n as [|n IH]; intros s Hex Ht.
  { simpl. rewrite app_nil_r. split_and!; [done..|lia|done]. }
  change (serving_rounds i (S n)) with (serving_round i ++ serving_rounds i n).
  change (relays_started (fresh s) (S n))
    with (THandle (fresh s) (S (fresh s)) HGo1 ::
          relays_started (S (S (fresh s))) n).
  cbv zeta. rewrite run_app, (serving_round_run _ _ _ _ _ _ Hex Ht).
  set (s1 := mkState _ _ _ _).
  destruct (IH s1) as (Htasks & Hexit & Hfresh & Hcloses); [done|..].
  { simpl. by apply lookup_app_l_Some. }
  simpl in *. rewrite Htasks, Hexit, Hfresh, Hcloses.
  split_and!; [by rewrite <-app_assoc|done|lia|].
  by rewrite fmap_app, closes_app, app_nil_r.
Qed.

Lemma accept_loop_never_waits_witness :
  let s := run demo_world demo_accepting init in
  tasks (run demo_world (serving_rounds 1 2) s) =
    tasks s ++ [THandle 4 5 HGo1; THandle 6 7 HGo1].
Proof.
  intros s.
  destruct (accept_loop_never_waits demo_world 2 s 1 2 demo_endpoint 3
              eq_refl eq_refl) as (Htasks & _).
  exact Htasks.
Defined.

(** * Tunnels in configuration order *)

Lemma reachable_tunnels_prefix w s : reachable w s → tunnels_prefix w s.
Proof.
  induction 1 as [|s [i a] Hs IH] using reachable_ind'.
  { by exists MFlags. }
  destruct (step_cases w (i, a) s) as [->|(t & Hex & Ht & ->)]; [done|].
  destruct IH as (pc & Hmain & Hinv). unfold tunnels_prefix. simpl in Ht |- *.
  apply lookup_lt_Some in Ht as Hlt. apply lookup_lt_Some in Hmain as Hlt0.
  rewrite lookup_app_l by (by rewrite length_insert).
  destruct (step_task_tunnel_endpoint w (fresh s) a t) as [Hnext Hspawn].
  rewrite omap_app, (tunnel_endpoint_insert _ _ t) by done.
  destruct (decide (i = 0)) as [->|Hne].
  - assert (t = TMain pc) as -> by congruence. clear Hnext Hspawn.
    rewrite list_lookup_insert_eq by done. simpl.
    destruct pc as [| | | | | |[|host hosts]|host hosts|cl [|ep eps] hosts| | |];
      simpl in *; main_cases; simpl; eexists; (split; [done|]); simpl;
      rewrite ?app_nil_r in Hinv; rewrite ?app_nil_r; try done;
      try (rewrite <-Hinv; by first [apply prefix_app_r|idtac]).
    + unfold config_hosts in *.
      by match goal with H : w_decode w = _ |- _ => rewrite H in * end.
    + by rewrite <-app_assoc.
  - rewrite list_lookup_insert_ne by done. exists pc. split; [done|].
    rewrite Hspawn, app_nil_r; [done|].
    destruct (is_main t) eqn:Hm; [|done].
    by apply (wf_others _ (reachable_wf _ _ Hs)) in Ht.
Qed.

(** X13. Tunnels are started one per configured endpoint, in configuration
    order, and for configured endpoints only: in every reachable state,
    also after the process has ended, the endpoints of the tunnel
    goroutines, in the order they were started, are a beginning of the
    configured endpoints read host by host. *)
Theorem tunnels_started_in_config_order w s :
  reachable w s →
  omap tunnel_endpoint (tasks s) `prefix_of` config_hosts w ≫= Endpoints.
Proof.
  intros Hs. destruct (reachable_tunnels_prefix w s Hs) as (pc & _ & Hinv).
  destruct (remaining_endpoints w pc) as [rest|]; [|done].
  rewrite <-Hinv. by apply prefix_app_r.
Qed.

Lemma tunnels_started_in_config_order_witness :
  omap tunnel_endpoint (tasks (run demo_world demo_schedule init))
    `prefix_of` [demo_endpoint].
Proof.
  apply (tunnels_started_in_config_order demo_world).
  by exists demo_schedule.
Defined.

(** * Who closes what *)

Lemma closes_own_pair_step w t fr a evs :
  closes_own_pair t evs →
  closes_own_pair (next (step_task w fr a t)) (evs ++ events (step_task w fr a t)).
Proof.
  destruct t as [pc|cl ep pc|f r pc|d f r pc]; simpl; intros Hinv.
  - destruct pc as [| | | | | |[|host hosts]|host hosts|cl [|ep eps] hosts| | |];
      simpl; main_cases; simpl; by rewrite closes_app, Hinv.
  - destruct pc, a; simpl; by rewrite closes_app, Hinv.
  - destruct pc; simpl; by rewrite closes_app, Hinv.
  - destruct pc; simpl; rewrite closes_app; (apply Forall_app; split; [done|]);
      destruct d, a as [[]|]; simpl;
      repeat (apply Forall_cons; split);
      first [by left|by right|by apply Forall_nil].
Qed.

Lemma reachable_closes_own_pair w s i t :
  reachable w s → tasks s !! i = Some t → closes_own_pair t (own i (trace s)).
Proof.
  apply (local_invariant w closes_own_pair).
  - done.
  - intros t0 fr a t' Hin. apply step_task_spawn in Hin.
    repeat case_match; simplify_eq; try done; constructor.
  - apply closes_own_pair_step.
Qed.

(** X14. A [Close] only ever hits the pair of the relay it belongs to:
    every recorded [Close] was made by a copy goroutine, on the local
    connection or the channel of its own relay, and that connection
    belongs to no other relay.  [main], the tunnels and [handleClient]
    itself never close anything. *)
Theorem close_is_confined_to_its_relay w s i c a :
  reachable w s → (i, EClose c a) ∈ trace s →
  ∃ d f r pc j pc',
    tasks s !! i = Some (TCopy d f r pc) ∧ (c = f ∨ c = r) ∧
    tasks s !! j = Some (THandle f r pc') ∧
    ∀ j' f' r' pc'', j' ≠ j → tasks s !! j' = Some (THandle f' r' pc'') →
                     c ≠ f' ∧ c ≠ r'.
Proof.
  intros Hs Hin.
  assert (i < length (tasks s)) as Hlt.
  { pose proof (wf_tags _ (reachable_wf _ _ Hs)) as Htags.
    rewrite Forall_forall in Htags. by apply Htags in Hin. }
  apply lookup_lt_is_Some in Hlt as [t Ht].
  pose proof (reachable_closes_own_pair w s i t Hs Ht) as Hown.
  assert (c ∈ closes (own i (trace s))) as Hc.
  { unfold closes. apply list_elem_of_omap. exists (EClose c a).
    split; [by apply elem_of_own|done]. }
  destruct t as [pc|cl ep pc|f r pc|d f r pc]; simpl in Hown;
    try (rewrite Hown in Hc; by apply elem_of_nil in Hc).
  rewrite Forall_forall in Hown. apply Hown in Hc.
  destruct (reachable_relay_family w s Hs) as (Hparent & _).
  destruct (Hparent _ _ _ _ _ Ht) as (j & pc' & Hj).
  exists d, f, r, pc, j, pc'. split_and!; [done..|].
  intros j' f' r' pc'' Hne Hj'.
  pose proof (conns_exclusive_between w s j j' _ _ c Hs (not_eq_sym Hne) Hj Hj')
    as Hex. simpl in Hex.
  assert (c ∈ [f; r]) as Hcfr.
  { destruct Hc as [->| ->]; [by left|right; by left]. }
  split; intros ->; apply Hex; first [done|by left|right; by left].
Qed.

Lemma close_is_confined_to_its_relay_witness :
  ∃ d f r pc j pc',
    tasks (run demo_world demo_two_relays init) !! 4 = Some (TCopy d f r pc) ∧
    (5 = f ∨ 5 = r) ∧
    tasks (run demo_world demo_two_relays init) !! j = Some (THandle f r pc') ∧
    ∀ j' f' r' pc'', j' ≠ j →
      tasks (run demo_world demo_two_relays init) !! j' = Some (THandle f' r' pc'') →
      5 ≠ f' ∧ 5 ≠ r'.
Proof.
  apply (close_is_confined_to_its_relay demo_world _ 4 5
           (Some (other_error "use of closed"))).
  - by exists demo_two_relays.
  - vm_compute. repeat first [apply list_elem_of_here|apply list_elem_of_further].
Defined.
